(** * set.hpp: the templated [Set<T, Equal>] class and its free functions

  A shallow embedding of the dynamic-array Set of [set.hpp].  The object
  state is the record [Set_] (the private members [_array], [_size],
  [_num_elements]); member functions that mutate [*this] or may throw are
  computations in the monad [M], which threads the object and the free
  store and short-circuits on a thrown exception, keeping the state reached
  so far (as C++ does when a member function is left by an exception). *)

From stdpp Require Import base list strings pretty.
From Stdlib Require Import ZArith Lia.

(** ** Exceptions and the free store *)

(** The two exceptions of [set.hpp]: [std::bad_alloc] out of [new T[n]] and
  [std::out_of_range] out of [operator[]]. *)
Inductive exn : Type :=
| bad_alloc
| out_of_range.

Inductive result (A : Type) : Type :=
| Ok (a : A)
| Throw (e : exn).
Arguments Ok {A} a.
Arguments Throw {A} e.

(** The free store is seen through the outcomes of the coming [new T[n]]
  requests, oldest first: [false] is a request that throws
  [std::bad_alloc].  Once the list is used up every request succeeds. *)
Definition heap : Type := list bool.

Definition alloc_ok (h : heap) : Prop := Forall (λ b, b = true) h.

(** ** The element types and functors of the callers *)

(** [class Person] and [struct EqualPerson] of main.cpp. *)
Record Person : Type := mkPerson {
  name : string;
  age : Z
}.

(** [Person()] *)
Definition Person_default : Person := mkPerson EmptyString (-1).

Definition EqualPerson (a b : Person) : bool :=
  (age a =? age b)%Z && String.eqb (name a) (name b).

(** [QChar] is a UTF-16 code unit and [QString] a sequence of them;
    [QString::operator==] compares the code units. *)
Definition QChar : Type := N.
Definition QString : Type := list QChar.

Definition QString_eq (a b : QString) : bool := bool_decide (a = b).

(** [class MainWindow::Dipinto] and [class MainWindow::DipintoEquality] of
    mainwindow.h. *)
Record Dipinto : Type := mkDipinto {
  _scuola : QString;
  _autore : QString;
  _soggetto : QString;
  _data : QString;
  _sala : QString
}.

Definition GetScuola (d : Dipinto) : QString := _scuola d.
Definition GetAutore (d : Dipinto) : QString := _autore d.
Definition GetSoggetto (d : Dipinto) : QString := _soggetto d.
Definition GetData (d : Dipinto) : QString := _data d.
Definition GetSala (d : Dipinto) : QString := _sala d.

Definition DipintoEquality (a b : Dipinto) : bool :=
  QString_eq (GetScuola a) (GetScuola b) &&
  QString_eq (GetAutore a) (GetAutore b) &&
  QString_eq (GetSoggetto a) (GetSoggetto b) &&
  QString_eq (GetData a) (GetData b) &&
  QString_eq (GetSala a) (GetSala b).

(** ** The text helpers of [MainWindow] (mainwindow.cpp) *)

Section MainWindowHelpers.
(** Qt's [QChar::isDigit], [QString::toInt] and [QString::trimmed]. *)
Variable isDigit : QChar → bool.
Variable toInt : QString → Z.
Variable trimmed : QString → QString.

(** The comma and the double quote as [QChar] (Latin-1 codes 44 and 34). *)
Definition comma : QChar := 44%N.
Definition dquote : QChar := 34%N.

(** [text[i]] *)
Definition char_at (text : QString) (i : nat) : QChar := nth i text 0%N.

(** [int MainWindow::findValidYear(const QString& text)]: the loop
    [for (i = 0; i <= text.length(); ++i)], at index [i] with [n] iterations
    left. *)
Fixpoint findValidYear_loop (text : QString) (n i : nat)
    (numberBuffer : QString) : Z :=
  match n with
  | 0 => 0%Z
  | S n' =>
      if (i =? length text) || negb (isDigit (char_at text i)) then
        if (length numberBuffer =? 3) || (length numberBuffer =? 4) then
          let year := toInt numberBuffer in
          if (100 <=? year)%Z && (year <=? 2024)%Z then year
          else findValidYear_loop text n' (S i) []
        else findValidYear_loop text n' (S i) []
      else findValidYear_loop text n' (S i) (numberBuffer ++ [char_at text i])
  end.

Definition findValidYear (text : QString) : Z :=
  findValidYear_loop text (length text + 1) 0 [].

(** [bool MainWindow::containsValidYear(const QString& text)] *)
Definition containsValidYear (text : QString) : bool :=
  if (findValidYear text =? 0)%Z then false else true.

(** [QStringList MainWindow::parseCsvLine(const QString &line)] *)
Inductive State : Type :=
| Normal
| Quote.

(** The loop [for (i = 0; i < line.size(); ++i)], at index [i] with at most
    [n] iterations left (an iteration advances [i] by one or two). *)
Fixpoint parseCsvLine_loop (line : QString) (n i : nat) (state : State)
    (fields : list QString) (value : QString) : list QString * QString :=
  match n with
  | 0 => (fields, value)
  | S n' =>
      if i <? length line then
        let current := char_at line i in
        match state with
        | Normal =>
            if (current =? comma)%N then
              parseCsvLine_loop line n' (S i) Normal
                (fields ++ [trimmed value]) []
            else if (current =? dquote)%N then
              parseCsvLine_loop line n' (S i) Quote fields value
            else
              parseCsvLine_loop line n' (S i) Normal fields
                (value ++ [current])
        | Quote =>
            if (current =? dquote)%N then
              if (i + 1 <? length line) &&
                 (char_at line (i + 1) =? dquote)%N then
                parseCsvLine_loop line n' (S (i + 1)) Quote fields
                  (value ++ [dquote])
              else parseCsvLine_loop line n' (S i) Normal fields value
            else
              parseCsvLine_loop line n' (S i) Quote fields
                (value ++ [current])
        end
      else (fields, value)
  end.

Definition parseCsvLine (line : QString) : list QString :=
  let '(fields, value) :=
    parseCsvLine_loop line (length line) 0 Normal [] [] in
  fields ++ [trimmed value].

(** The two loops, seen on the text that is left to read. *)
Definition is_year (numberBuffer : QString) : bool :=
  ((length numberBuffer =? 3) || (length numberBuffer =? 4)) &&
  ((100 <=? toInt numberBuffer)%Z && (toInt numberBuffer <=? 2024)%Z).

Fixpoint scan_year (rest numberBuffer : QString) : Z :=
  match rest with
  | [] => if is_year numberBuffer then toInt numberBuffer else 0%Z
  | c :: rest' =>
      if isDigit c then scan_year rest' (numberBuffer ++ [c])
      else if is_year numberBuffer then toInt numberBuffer
      else scan_year rest' []
  end.

Fixpoint parse_rest (rest : QString) (state : State)
    (fields : list QString) (value : QString) : list QString * QString :=
  match rest with
  | [] => (fields, value)
  | current :: rest' =>
      match state with
      | Normal =>
          if (current =? comma)%N then
            parse_rest rest' Normal (fields ++ [trimmed value]) []
          else if (current =? dquote)%N then
            parse_rest rest' Quote fields value
          else parse_rest rest' Normal fields (value ++ [current])
      | Quote =>
          if (current =? dquote)%N then
            match rest' with
            | next :: rest'' =>
                if (next =? dquote)%N then
                  parse_rest rest'' Quote fields (value ++ [dquote])
                else parse_rest rest' Normal fields value
            | [] => parse_rest rest' Normal fields value
            end
          else parse_rest rest' Quote fields (value ++ [current])
      end
  end.

(** A CSV writer for the reader above: fields joined by commas, a field
    being written between quotes, with its quotes doubled, when it holds a
    comma or a quote. *)
Fixpoint double_quotes (field : QString) : QString :=
  match field with
  | [] => []
  | c :: field' =>
      if (c =? dquote)%N then dquote :: dquote :: double_quotes field'
      else c :: double_quotes field'
  end.

Definition quoted (field : QString) : QString :=
  dquote :: double_quotes field ++ [dquote].

Definition is_plain (field : QString) : bool :=
  forallb (λ c, negb (c =? comma)%N && negb (c =? dquote)%N) field.

Definition write_field (field : QString) : QString :=
  if is_plain field then field else quoted field.

Fixpoint join_comma (fields : list QString) : QString :=
  match fields with
  | [] => []
  | [field] => field
  | field :: fields' => field ++ comma :: join_comma fields'
  end.

End MainWindowHelpers.

(** The three Qt functions on ASCII text, for the examples: the digits
    [0-9], the decimal number of a run of digits, and the removal of the
    spaces, tabs and line ends at both ends. *)
Definition ascii_isDigit (c : QChar) : bool :=
  (48 <=? c)%N && (c <=? 57)%N.

Definition ascii_toInt (s : QString) : Z :=
  fold_left (λ acc c, acc * 10 + Z.of_N (c - 48))%Z s 0%Z.

Definition ascii_isSpace (c : QChar) : bool :=
  (c =? 32)%N || ((9 <=? c)%N && (c <=? 13)%N).

Fixpoint drop_spaces (s : QString) : QString :=
  match s with
  | [] => []
  | c :: s' => if ascii_isSpace c then drop_spaces s' else s
  end.

Definition ascii_trimmed (s : QString) : QString :=
  rev (drop_spaces (rev (drop_spaces s))).

(** ASCII text as a [QString]. *)
Definition qstring (s : string) : QString :=
  map (λ a, Ascii.N_of_ascii a) (String.list_ascii_of_string s).

Section SetClass.
(** [T] with its default constructor ([new T[n]] default-constructs the
    [n] slots), and the [Equal] functor.  [size_t] is modelled by [nat]:
    [_size] is the length of a live buffer, so [_size * 2] stays far below
    [2^64] and the arithmetic of [resize] never wraps. *)
Context {T : Type}.
Variable T_default : T.
Variable _equal : T → T → bool.
(** [os << x] for an element: its textual form. *)
Variable T_show : T → string.

Record Set_ : Type := mkSet {
  _array : list T;
  _size : nat;
  _num_elements : nat
}.

(** Member functions: state is [*this] and the free store. *)
Definition M (A : Type) : Type := Set_ → heap → result A * Set_ * heap.

Definition ret {A} (a : A) : M A := λ this h, (Ok a, this, h).

Definition bind {A B} (m : M A) (k : A → M B) : M B := λ this h,
  match m this h with
  | (Ok a, this', h') => k a this' h'
  | (Throw e, this', h') => (Throw e, this', h')
  end.

Definition throw {A} (e : exn) : M A := λ this h, (Throw e, this, h).

(** [try { body } catch (const std::exception& e) { handler }] *)
Definition try_catch {A} (body : M A) (handler : exn → M A) : M A :=
  λ this h,
  match body this h with
  | (Ok a, this', h') => (Ok a, this', h')
  | (Throw e, this', h') => handler e this' h'
  end.

Definition get : M Set_ := λ this h, (Ok this, this, h).
Definition put (s : Set_) : M unit := λ _ h, (Ok tt, s, h).

(** [new T[n]]: consumes one outcome of the free store. *)
Definition new_array (n : nat) : M (list T) := λ this h,
  match h with
  | false :: h' => (Throw bad_alloc, this, h')
  | true :: h' => (Ok (replicate n T_default), this, h')
  | [] => (Ok (replicate n T_default), this, [])
  end.

Local Notation "x ← m ; k" := (bind m (λ x, k))
  (at level 20, m at level 100, k at level 200, only parsing).
Local Notation "m ;; k" := (bind m (λ _, k))
  (at level 100, k at level 200, right associativity, only parsing).

(** [a[i]] read out of a buffer. Every read of the class is below the
    length of the buffer on a well-formed object (see [wf]). *)
Definition at_ (a : list T) (i : nat) : T := nth i a T_default.

(** The loop [for (i = 0; i < n; ++i) dst[i] = src[i];] of [resize] and of
    the copy constructor, started at [i] with [n] iterations left. *)
Fixpoint copy_loop (n i : nat) (src dst : list T) : list T :=
  match n with
  | 0 => dst
  | S n' => copy_loop n' (S i) src (<[i := at_ src i]> dst)
  end.

(** [void resize(bool increase)] *)
Definition resize (increase : bool) : M unit :=
  this ← get;
  let new_size :=
    if increase then (if 0 <? _size this then _size this * 2 else 1)
    else _size this / 2 in
  try_catch
    (new_array ← new_array new_size;
     let new_array :=
       copy_loop (_num_elements this) 0 (_array this) new_array in
     put (mkSet new_array new_size (_num_elements this)))
    (λ e, throw e).

(** The [new_size] that [resize] computes. *)
Definition new_size_of (increase : bool) (this : Set_) : nat :=
  if increase then (if 0 <? _size this then _size this * 2 else 1)
  else _size this / 2.

(** [Set()] *)
Definition Set_default : Set_ := mkSet [] 0 0.

(** [void empty(void)] *)
Definition empty_ : M unit := put (mkSet [] 0 0).

(** [void swap(Set &other)]: returns [( *this, other )] after the call. *)
Definition swap (this other : Set_) : Set_ * Set_ :=
  (mkSet (_array other) (_size other) (_num_elements other),
   mkSet (_array this) (_size this) (_num_elements this)).

(** [bool contains(const T& value) const] *)
Fixpoint contains_loop (this : Set_) (value : T) (n i : nat) : bool :=
  match n with
  | 0 => false
  | S n' =>
      if _equal (at_ (_array this) i) value then true
      else contains_loop this value n' (S i)
  end.

Definition contains (this : Set_) (value : T) : bool :=
  contains_loop this value (_num_elements this) 0.

(** [bool add(const T& value)] *)
Definition add (value : T) : M bool :=
  this ← get;
  if contains this value then ret false
  else
    (if _num_elements this =? _size this then resize true else ret tt);;
    this ← get;
    put (mkSet (<[_num_elements this := value]> (_array this))
               (_size this) (S (_num_elements this)));;
    ret true.

(** [bool remove(const T& value)]: the loop, started at [i] with [n]
    iterations left. *)
Fixpoint remove_loop (value : T) (n i : nat) : M bool :=
  match n with
  | 0 => ret false
  | S n' =>
      this ← get;
      if _equal (at_ (_array this) i) value then
        put (mkSet (<[i := at_ (_array this) (_num_elements this - 1)]>
                      (_array this))
                   (_size this) (_num_elements this - 1));;
        this ← get;
        (if _num_elements this <=? _size this / 4 then resize false
         else ret tt);;
        ret true
      else remove_loop value n' (S i)
  end.

Definition remove (value : T) : M bool :=
  this ← get;
  remove_loop value (_num_elements this) 0.

(** The object after the two assignments of a hit at slot [i]:
    [_array[i] = _array[_num_elements - 1]; --_num_elements;] *)
Definition backfill (this : Set_) (i : nat) : Set_ :=
  mkSet (<[i := at_ (_array this) (_num_elements this - 1)]> (_array this))
        (_size this) (_num_elements this - 1).

(** [const T& operator[](int index) const].  [index] is an [int]; in
    [index >= _num_elements] it is converted to [size_t], that is taken
    modulo [2^64]. *)
Definition int_range (z : Z) : Prop := (- 2 ^ 31 ≤ z < 2 ^ 31)%Z.

Definition to_size_t (z : Z) : Z := (z mod 2 ^ 64)%Z.

Definition operator_index (this : Set_) (index : Z) : result T :=
  if (index <? 0)%Z || (Z.of_nat (_num_elements this) <=? to_size_t index)%Z
  then Throw out_of_range
  else Ok (at_ (_array this) (Z.to_nat index)).

(** [size_t getNumElements() const] *)
Definition getNumElements (this : Set_) : nat := _num_elements this.

(** A local object or an object under construction: run [body] on it and
    hand the object out, unless [body] is left by an exception. *)
Definition local_ {A} (body : M A) (obj : Set_) (h : heap)
  : result Set_ * heap :=
  match body obj h with
  | (Ok _, obj', h') => (Ok obj', h')
  | (Throw e, _, h') => (Throw e, h')
  end.

(** The loop of the copy constructor:
    [for (i = 0; i < other._num_elements; ++i)
       { _array[i] = other._array[i]; ++_num_elements; }] *)
Fixpoint copy_ctor_loop (other : Set_) (n i : nat) : M unit :=
  match n with
  | 0 => ret tt
  | S n' =>
      this ← get;
      put (mkSet (<[i := at_ (_array other) i]> (_array this))
                 (_size this) (S (_num_elements this)));;
      copy_ctor_loop other n' (S i)
  end.

(** [Set(const Set& other)] *)
Definition copy_ctor (other : Set_) : heap → result Set_ * heap :=
  local_
    (try_catch
       (a ← new_array (_size other);
        this ← get;
        put (mkSet a (_size other) (_num_elements this));;
        copy_ctor_loop other (_num_elements other) 0)
       (λ e, empty_;; throw e))
    (mkSet [] 0 0).

(** [Set& operator=(const Set& other)], for [&other != this]. *)
Definition operator_assign (other : Set_) : M unit := λ this h,
  match copy_ctor other h with
  | (Ok tmp, h') => (Ok tt, fst (swap this tmp), h')
  | (Throw e, h') => (Throw e, this, h')
  end.

(** [const_iterator]: the pointer [_ptr], as an offset into the [_array]
    of the Set the iterator was taken from. *)
Definition const_iterator : Type := nat.
Definition begin_ (this : Set_) : const_iterator := 0.
Definition end_ (this : Set_) : const_iterator := 0 + _num_elements this.
Definition deref (this : Set_) (it : const_iterator) : T :=
  at_ (_array this) it.

(** [for (it = src.begin(); it != src.end(); ++it) body( *it );] with [n]
    iterations left: [it] walks upwards from [begin()], so the loop makes
    [end() - begin()] iterations. *)
Fixpoint for_each (src : Set_) (body : T → M unit)
    (n : nat) (it : const_iterator) : M unit :=
  match n with
  | 0 => ret tt
  | S n' => body (deref src it);; for_each src body n' (S it)
  end.

(** The elements met by the same loop, in order: the iteration order. *)
Fixpoint iteration_from (src : Set_) (n : nat) (it : const_iterator)
  : list T :=
  match n with
  | 0 => []
  | S n' => deref src it :: iteration_from src n' (S it)
  end.

Definition iteration (this : Set_) : list T :=
  iteration_from this (end_ this - begin_ this) (begin_ this).

(** [std::ostream& operator<<(std::ostream& os, const Set& set)]; the
    stream is the text written to it so far, [os << n] for the [size_t]
    count appends its decimal digits ([pretty]) and [os << x] for an
    element appends [T_show x]. *)
Fixpoint out_loop (set : Set_) (n i : nat) (os : string) : string :=
  match n with
  | 0 => os
  | S n' =>
      out_loop set n' (S i)
        (os +:+ " (" +:+ T_show (at_ (_array set) i) +:+ ")")
  end.

Definition operator_out (os : string) (set : Set_) : string :=
  out_loop set (_num_elements set) 0 (os +:+ pretty (_num_elements set)).

(** [bool operator==(const Set& other) const] *)
Fixpoint eq_loop (this other : Set_) (n i : nat) : bool :=
  match n with
  | 0 => true
  | S n' =>
      if negb (contains this (at_ (_array other) i)) then false
      else eq_loop this other n' (S i)
  end.

Definition operator_eq (this other : Set_) : bool :=
  if negb (_num_elements this =? _num_elements other) then false
  else eq_loop this other (_num_elements this) 0.

(** [Set<T, Equal> operator+(const Set& a, const Set& b)] *)
Definition operator_plus (a b : Set_) (h : heap) : result Set_ * heap :=
  match copy_ctor a h with
  | (Ok new_set, h') =>
      local_
        (try_catch
           (for_each b (λ x, add x;; ret tt) (end_ b - begin_ b) (begin_ b))
           (λ e, empty_;; throw e))
        new_set h'
  | (Throw e, h') => (Throw e, h')
  end.

(** [Set<T, Equal> operator-(const Set& a, const Set& b)] *)
Definition operator_minus (a b : Set_) : heap → result Set_ * heap :=
  local_
    (try_catch
       (for_each a
          (λ x, if contains b x then add x;; ret tt else ret tt)
          (end_ a - begin_ a) (begin_ a))
       (λ e, empty_;; throw e))
    Set_default.

(** [Set(IteratorQ begin, IteratorQ end)]: the range delimited by the two
    iterators is the finite sequence [range] of the values that
    dereferencing yields, [begin] first. *)
Fixpoint range_loop (range : list T) : M unit :=
  match range with
  | [] => ret tt
  | x :: range' => add x;; range_loop range'
  end.

Definition range_ctor (range : list T) : heap → result Set_ * heap :=
  local_
    (try_catch (range_loop range) (λ e, empty_;; throw e))
    (mkSet [] 0 0).

(** [Set<T, Equal> filter_out(const Set<T, Equal>& S, Predicate P)] *)
Definition filter_out (S : Set_) (P : T → bool)
  : heap → result Set_ * heap :=
  local_
    (try_catch
       (for_each S
          (λ x, if P x then add x;; ret tt else ret tt)
          (end_ S - begin_ S) (begin_ S))
       (λ e, empty_;; throw e))
    Set_default.

(** ** Sequences of operations on two Set objects

    [this] is the object the member functions are called on and [other]
    a second object of the same type; an exception leaves the objects as
    the failed call left them and the caller goes on. *)
Inductive op : Type :=
| op_add (value : T)        (* this.add(value) *)
| op_remove (value : T)     (* this.remove(value) *)
| op_empty                  (* this.empty() *)
| op_assign                 (* this = other *)
| op_copy                   (* Set other(this), in place of other *)
| op_swap.                  (* this.swap(other) *)

Definition step (w : Set_ * Set_ * heap) (o : op) : Set_ * Set_ * heap :=
  let '(this, other, h) := w in
  match o with
  | op_add value =>
      let '(_, this', h') := add value this h in (this', other, h')
  | op_remove value =>
      let '(_, this', h') := remove value this h in (this', other, h')
  | op_empty =>
      let '(_, this', h') := empty_ this h in (this', other, h')
  | op_assign =>
      let '(_, this', h') := operator_assign other this h in
      (this', other, h')
  | op_copy =>
      match copy_ctor this h with
      | (Ok other', h') => (this, other', h')
      | (Throw _, h') => (this, other, h')
      end
  | op_swap =>
      let '(this', other') := swap this other in (this', other', h)
  end.

Definition run (ops : list op) (w : Set_ * Set_ * heap)
  : Set_ * Set_ * heap :=
  fold_left step ops w.

(** ** Invariants of the data model *)

(** The buffer has [_size] slots and the occupied range lies inside it. *)
Definition wf (s : Set_) : Prop :=
  length (_array s) = _size s ∧ _num_elements s ≤ _size s.

(** No two occupied slots are [Equal]. *)
Definition unique (s : Set_) : Prop :=
  ∀ i j, i < _num_elements s → j < _num_elements s → i ≠ j →
    _equal (at_ (_array s) i) (at_ (_array s) j) = false.

(** The same, for a sequence of elements. *)
Definition distinct (l : list T) : Prop :=
  ∀ i j x y, l !! i = Some x → l !! j = Some y → i ≠ j →
    _equal x y = false.

(** Slot [i] is the first one that [remove(value)] and [contains(value)]
    find [Equal] to [value]. *)
Definition first_hit (s : Set_) (value : T) (i : nat) : Prop :=
  i < _num_elements s ∧
  _equal (at_ (_array s) i) value = true ∧
  ∀ j, j < i → _equal (at_ (_array s) j) value = false.

(** [Equal] is an equivalence on [T]. *)
Definition equal_equivalence : Prop :=
  (∀ x, _equal x x = true) ∧
  (∀ x y, _equal x y = true → _equal y x = true) ∧
  (∀ x y z, _equal x y = true → _equal y z = true → _equal x z = true).

(** The occupancy bound as the specification words it. *)
Definition quarter_bound (s : Set_) : Prop :=
  0 < _size s → _size s / 4 < _num_elements s.

(** The occupancy bound that the resize policy keeps. *)
Definition occupancy (s : Set_) : Prop :=
  _size s / 4 < _num_elements s ∨ (_num_elements s = 0 ∧ _size s ≤ 1).

(** * Properties *)

#[local] Arguments Nat.div : simpl never.
#[local] Arguments new_size_of : simpl never.

(** ** The free store *)

Lemma new_array_eq (n : nat) (s : Set_) (h : heap) :
  new_array n s h =
  (if hd true h then Ok (replicate n T_default) else Throw bad_alloc,
   s, tl h).
Proof. by destruct h as [|[] h]. Qed.

Lemma alloc_ok_hd (h : heap) : alloc_ok h → hd true h = true.
Proof. by destruct 1. Qed.

Lemma alloc_ok_tl (h : heap) : alloc_ok h → alloc_ok (tl h).
Proof. destruct 1; [constructor | done]. Qed.

(** ** Reading the occupied range *)

Lemma iteration_from_seq (s : Set_) (n i : nat) :
  iteration_from s n i = map (at_ (_array s)) (seq i n).
Proof.
  revert i; induction n as [|n IH]; intros i; simpl; [done|].
  by rewrite IH.
Qed.

Lemma map_at_seq (a : list T) (n : nat) :
  n ≤ length a → map (at_ a) (seq 0 n) = take n a.
Proof.
  intros Hn. apply list_eq; intros k.
  rewrite list_lookup_fmap, lookup_take.
  destruct (decide (k < n)) as [Hk|Hk].
  - rewrite lookup_seq_lt by done; simpl.
    unfold at_. rewrite nth_lookup.
    destruct (lookup_lt_is_Some_2 a k) as [x ->]; [lia | done].
  - rewrite lookup_seq_ge by lia. done.
Qed.

Lemma iteration_unfold (s : Set_) :
  iteration s = iteration_from s (_num_elements s) 0.
Proof.
  unfold iteration, end_, begin_. f_equal. lia.
Qed.

Lemma iteration_seq (s : Set_) :
  iteration s = map (at_ (_array s)) (seq 0 (_num_elements s)).
Proof. by rewrite iteration_unfold, iteration_from_seq. Qed.

Lemma iteration_take (s : Set_) :
  _num_elements s ≤ length (_array s) →
  iteration s = take (_num_elements s) (_array s).
Proof. intros. rewrite iteration_seq. by apply map_at_seq. Qed.

Lemma length_iteration (s : Set_) :
  length (iteration s) = _num_elements s.
Proof. by rewrite iteration_seq, length_map, length_seq. Qed.

Lemma iteration_lookup (s : Set_) (i : nat) :
  i < _num_elements s → iteration s !! i = Some (at_ (_array s) i).
Proof.
  intros Hi. rewrite iteration_seq, list_lookup_fmap.
  by rewrite lookup_seq_lt.
Qed.

(** ** [contains] *)

Lemma contains_loop_existsb (s : Set_) (v : T) (n i : nat) :
  contains_loop s v n i =
  existsb (λ x, _equal x v) (iteration_from s n i).
Proof.
  revert i; induction n as [|n IH]; intros i; simpl; [done|].
  rewrite IH. unfold deref. by destruct (_equal _ _).
Qed.

Lemma contains_existsb (s : Set_) (v : T) :
  contains s v = existsb (λ x, _equal x v) (iteration s).
Proof.
  unfold contains.
  by rewrite contains_loop_existsb, iteration_unfold.
Qed.

(** ** [resize] *)

Lemma copy_loop_length (n i : nat) (src dst : list T) :
  length (copy_loop n i src dst) = length dst.
Proof.
  revert i dst; induction n as [|n IH]; intros i dst; simpl; [done|].
  by rewrite IH, length_insert.
Qed.

Lemma copy_loop_lookup (n i k : nat) (src dst : list T) :
  i + n ≤ length src → i + n ≤ length dst →
  copy_loop n i src dst !! k =
  if decide (i ≤ k < i + n) then src !! k else dst !! k.
Proof.
  revert i dst; induction n as [|n IH]; intros i dst Hs Hd; simpl.
  { case_decide; [lia | done]. }
  rewrite IH by (rewrite ?length_insert; lia).
  repeat case_decide; try lia; try done.
  - assert (k = i) as -> by lia.
    rewrite list_lookup_insert_eq by lia.
    unfold at_. rewrite nth_lookup.
    destruct (lookup_lt_is_Some_2 src i) as [x ->]; [lia | done].
  - rewrite list_lookup_insert_ne by lia. done.
Qed.

Lemma copy_loop_0 (n : nat) (src dst : list T) :
  n ≤ length src → n ≤ length dst →
  copy_loop n 0 src dst = take n src ++ drop n dst.
Proof.
  intros Hs Hd. apply list_eq; intros k.
  rewrite copy_loop_lookup by lia.
  case_decide.
  - rewrite lookup_app_l by (rewrite length_take; lia).
    rewrite lookup_take_lt by lia. done.
  - rewrite lookup_app_r by (rewrite length_take; lia).
    rewrite length_take, lookup_drop. f_equal. lia.
Qed.

Lemma resize_fail (increase : bool) (s : Set_) (h : heap) :
  hd true h = false →
  resize increase s h = (Throw bad_alloc, s, tl h).
Proof.
  intros Hh. unfold resize, bind, get, try_catch.
  rewrite new_array_eq, Hh. done.
Qed.

Lemma resize_ok (increase : bool) (s : Set_) (h : heap) :
  wf s → _num_elements s ≤ new_size_of increase s → hd true h = true →
  resize increase s h =
  (Ok tt,
   mkSet (take (_num_elements s) (_array s) ++
          replicate (new_size_of increase s - _num_elements s) T_default)
         (new_size_of increase s) (_num_elements s),
   tl h).
Proof.
  intros [Hlen Hle] Hn Hh. unfold resize, bind, get, try_catch, put.
  rewrite new_array_eq, Hh. fold (new_size_of increase s).
  rewrite copy_loop_0 by (rewrite ?length_replicate; lia).
  by rewrite drop_replicate.
Qed.

(** ** [add] *)

Lemma take_S_insert (a : list T) (n : nat) (v : T) :
  n < length a → take (S n) (<[n := v]> a) = take n a ++ [v].
Proof.
  intros Hn. apply list_eq; intros k.
  destruct (decide (k < n)) as [Hk|Hk].
  - rewrite lookup_take_lt, list_lookup_insert_ne by lia.
    rewrite lookup_app_l by (rewrite length_take; lia).
    by rewrite lookup_take_lt.
  - rewrite lookup_app_r by (rewrite length_take; lia).
    rewrite length_take, Nat.min_l by lia.
    destruct (decide (k = n)) as [->|Hk'].
    + rewrite lookup_take_lt, list_lookup_insert_eq by lia.
      by rewrite Nat.sub_diag.
    + rewrite lookup_take_ge by lia.
      destruct (k - n) as [|m] eqn:E; [lia | done].
Qed.

Lemma add_present (s : Set_) (v : T) (h : heap) :
  contains s v = true → add v s h = (Ok false, s, h).
Proof. intros Hc. unfold add, bind, get. simpl. by rewrite Hc. Qed.

Lemma add_room (s : Set_) (v : T) (h : heap) :
  contains s v = false → _num_elements s < _size s →
  add v s h =
  (Ok true,
   mkSet (<[_num_elements s := v]> (_array s)) (_size s)
         (S (_num_elements s)), h).
Proof.
  intros Hc Hlt. unfold add, bind, get. simpl. rewrite Hc.
  destruct (Nat.eqb_spec (_num_elements s) (_size s)); [lia | done].
Qed.

Lemma add_grow_fail (s : Set_) (v : T) (h : heap) :
  contains s v = false → _num_elements s = _size s → hd true h = false →
  add v s h = (Throw bad_alloc, s, tl h).
Proof.
  intros Hc Heq Hh. unfold add, bind, get. simpl. rewrite Hc.
  rewrite Heq, Nat.eqb_refl, resize_fail by done. done.
Qed.

Lemma add_grow_ok (s : Set_) (v : T) (h : heap) :
  wf s → contains s v = false → _num_elements s = _size s →
  hd true h = true →
  add v s h =
  (Ok true,
   mkSet (<[_num_elements s := v]>
            (take (_num_elements s) (_array s) ++
             replicate (new_size_of true s - _num_elements s) T_default))
         (new_size_of true s) (S (_num_elements s)),
   tl h).
Proof.
  intros Hwf Hc Heq Hh. unfold add, bind, get. simpl. rewrite Hc.
  assert (_num_elements s ≤ new_size_of true s) as Hns.
  { unfold new_size_of. destruct (Nat.ltb_spec 0 (_size s)); lia. }
  destruct (Nat.eqb_spec (_num_elements s) (_size s)); [|lia].
  rewrite resize_ok by done. done.
Qed.

Lemma new_size_grow (s : Set_) :
  _size s < new_size_of true s.
Proof.
  unfold new_size_of. destruct (Nat.ltb_spec 0 (_size s)); lia.
Qed.

(** ** [remove] *)

Lemma remove_loop_miss (v : T) (n i : nat) (s : Set_) (h : heap) :
  (∀ j, i ≤ j < i + n → _equal (at_ (_array s) j) v = false) →
  remove_loop v n i s h = (Ok false, s, h).
Proof.
  revert i; induction n as [|n IH]; intros i Hmiss; simpl; [done|].
  unfold bind at 1, get at 1. rewrite Hmiss by lia. apply IH.
  intros j Hj. apply Hmiss. lia.
Qed.

Lemma remove_loop_hit (v : T) (n i k : nat) (s : Set_) (h : heap) :
  i ≤ k < i + n →
  _equal (at_ (_array s) k) v = true →
  (∀ j, i ≤ j < k → _equal (at_ (_array s) j) v = false) →
  remove_loop v n i s h =
  bind (if _num_elements (backfill s k) <=? _size (backfill s k) / 4
        then resize false else ret tt)
       (λ _, ret true) (backfill s k) h.
Proof.
  revert i; induction n as [|n IH]; intros i Hk Hhit Hmiss; [lia|].
  simpl. unfold bind at 1, get at 1.
  destruct (decide (i = k)) as [->|Hne].
  - rewrite Hhit. reflexivity.
  - rewrite Hmiss by lia. apply IH; [lia | done |].
    intros j Hj. apply Hmiss. lia.
Qed.

Lemma contains_false_iff (s : Set_) (v : T) :
  contains s v = false ↔
  ∀ j, j < _num_elements s → _equal (at_ (_array s) j) v = false.
Proof.
  rewrite contains_existsb, iteration_seq. split.
  - intros Hex j Hj.
    destruct (_equal (at_ (_array s) j) v) eqn:E; [|done].
    rewrite <- Hex. symmetry. apply existsb_exists.
    exists (at_ (_array s) j). split; [|done].
    apply in_map, in_seq. lia.
  - intros Hall.
    destruct (existsb _ _) eqn:E; [|done].
    apply existsb_exists in E as (x & Hin & Hx).
    apply in_map_iff in Hin as (j & <- & Hj%in_seq).
    rewrite Hall in Hx by lia. done.
Qed.

Lemma first_hit_exists (s : Set_) (v : T) :
  contains s v = true → ∃ i, first_hit s v i.
Proof.
  unfold contains, first_hit.
  assert (∀ n i, contains_loop s v n i = true →
            ∃ k, i ≤ k < i + n ∧ _equal (at_ (_array s) k) v = true ∧
                 ∀ j, i ≤ j < k → _equal (at_ (_array s) j) v = false) as H.
  { induction n as [|n IH]; intros i Hc; simpl in Hc; [done|].
    destruct (_equal (at_ (_array s) i) v) eqn:E.
    - exists i. repeat split; [lia.. | done | intros; lia].
    - destruct (IH _ Hc) as (k & Hk & Hhit & Hmiss).
      exists k. repeat split; [lia.. | done |].
      intros j Hj. destruct (decide (j = i)) as [->|]; [done|].
      apply Hmiss. lia. }
  intros Hc. destruct (H _ _ Hc) as (k & Hk & Hhit & Hmiss).
  exists k. repeat split; [lia | done |]. intros j Hj. apply Hmiss. lia.
Qed.

Lemma first_hit_contains (s : Set_) (v : T) (i : nat) :
  first_hit s v i → contains s v = true.
Proof.
  intros (Hi & Hhit & _).
  destruct (contains s v) eqn:E; [done|].
  rewrite contains_false_iff in E. rewrite E in Hhit; done.
Qed.

Lemma iteration_backfill (s : Set_) (i : nat) :
  wf s → i < _num_elements s →
  iteration (backfill s i) =
  take (_num_elements s - 1)
    (<[i := at_ (_array s) (_num_elements s - 1)]> (iteration s)).
Proof.
  intros [Hlen Hle] Hi.
  rewrite (iteration_take s), iteration_take by (simpl; rewrite ?length_insert; lia).
  simpl. apply list_eq; intros k.
  destruct (decide (k < _num_elements s - 1)) as [Hk|Hk].
  - rewrite !lookup_take_lt by lia.
    destruct (decide (k = i)) as [->|Hne].
    + rewrite !list_lookup_insert_eq by (rewrite ?length_take; lia). done.
    + rewrite !list_lookup_insert_ne by lia.
      by rewrite lookup_take_lt by lia.
  - by rewrite !lookup_take_ge by lia.
Qed.

Lemma iteration_moved (a rest : list T) (c n : nat) :
  c ≤ length a →
  iteration (mkSet (take c a ++ rest) n c) = take c a.
Proof.
  intros Hc. rewrite iteration_take; simpl.
  - rewrite take_app_length'; [done|]. rewrite length_take. lia.
  - rewrite length_app, length_take. lia.
Qed.

(** The three ways out of [remove] once the scan has hit slot [i]. *)
Lemma remove_hit (s : Set_) (v : T) (h : heap) (i : nat) :
  wf s → first_hit s v i →
  remove v s h =
  if _num_elements s - 1 <=? _size s / 4 then
    if hd true h then
      (Ok true,
       mkSet (take (_num_elements s - 1) (_array (backfill s i)) ++
              replicate (_size s / 2 - (_num_elements s - 1)) T_default)
             (_size s / 2) (_num_elements s - 1),
       tl h)
    else (Throw bad_alloc, backfill s i, tl h)
  else (Ok true, backfill s i, h).
Proof.
  intros [Hlen Hle] (Hi & Hhit & Hmiss).
  unfold remove. unfold bind at 1, get at 1.
  rewrite (remove_loop_hit v _ 0 i);
    [| lia | done | intros j Hj; apply Hmiss; lia].
  unfold bind. simpl.
  destruct (Nat.leb_spec (_num_elements s - 1) (_size s / 4)) as [Hq|Hq];
    [|done].
  destruct (hd true h) eqn:Hh.
  - rewrite resize_ok; [done | | | done].
    + split; simpl; [rewrite length_insert|]; lia.
    + unfold new_size_of; simpl.
      assert (_size s / 4 ≤ _size s / 2); [|lia].
      replace (_size s / 4) with (_size s / 2 / 2)
        by (rewrite Nat.Div0.div_div; done).
      apply Nat.Div0.div_le_upper_bound. lia.
  - by rewrite resize_fail.
Qed.

Lemma remove_miss (s : Set_) (v : T) (h : heap) :
  contains s v = false → remove v s h = (Ok false, s, h).
Proof.
  intros Hc. rewrite contains_false_iff in Hc. unfold remove.
  unfold bind at 1, get at 1. apply remove_loop_miss.
  intros j Hj. apply Hc. lia.
Qed.

(** ** Claims on [add] and [remove] *)

Lemma at_insert_eq (a : list T) (i : nat) (x : T) :
  i < length a → at_ (<[i := x]> a) i = x.
Proof.
  intros Hi. unfold at_. by rewrite nth_lookup, list_lookup_insert_eq.
Qed.

Lemma at_insert_ne (a : list T) (i j : nat) (x : T) :
  i ≠ j → at_ (<[i := x]> a) j = at_ a j.
Proof.
  intros Hne. unfold at_. by rewrite !nth_lookup, list_lookup_insert_ne.
Qed.

Lemma wf_insert (a : list T) (n c i : nat) (x : T) :
  wf (mkSet a n c) → wf (mkSet (<[i := x]> a) n c).
Proof. intros [Hlen Hle]; split; simpl in *; [by rewrite length_insert | done]. Qed.

Lemma wf_moved (a : list T) (n c : nat) :
  c ≤ length a → c ≤ n →
  wf (mkSet (take c a ++ replicate (n - c) T_default) n c).
Proof.
  intros Ha Hn; split; simpl; [|done].
  rewrite length_app, length_take, length_replicate. lia.
Qed.

Lemma add_absent (s : Set_) (v : T) (h : heap) :
  wf s →
  contains s v = false →
  _num_elements s < _size s ∨ hd true h = true →
  ∃ s',
    add v s h =
      (Ok true, s', if _num_elements s =? _size s then tl h else h) ∧
    wf s' ∧
    _num_elements s' = S (_num_elements s) ∧
    _size s' =
      (if _num_elements s =? _size s then new_size_of true s else _size s) ∧
    at_ (_array s') (_num_elements s) = v ∧
    iteration s' = iteration s ++ [v].
Proof.
  intros Hwf Hc Hroom. pose proof Hwf as [Hlen Hle].
  destruct (Nat.eqb_spec (_num_elements s) (_size s)) as [Heq|Hne].
  - destruct Hroom as [?|Hh]; [lia|].
    pose proof (new_size_grow s) as Hg.
    eexists. split; [by apply add_grow_ok|].
    assert (_num_elements s <
            length (take (_num_elements s) (_array s) ++
                    replicate (new_size_of true s - _num_elements s)
                      T_default)) as Hin
      by (rewrite length_app, length_take, length_replicate; lia).
    repeat split; simpl; try done.
    + rewrite length_insert, length_app, length_take, length_replicate. lia.
    + lia.
    + by apply at_insert_eq.
    + rewrite iteration_take by (simpl; rewrite length_insert; lia).
      simpl. rewrite take_S_insert by done.
      rewrite take_app_length' by (rewrite length_take; lia).
      by rewrite iteration_take by lia.
  - eexists. split; [apply add_room; [done | lia]|].
    repeat split; simpl; try done.
    + by rewrite length_insert.
    + lia.
    + apply at_insert_eq. lia.
    + rewrite iteration_take by (simpl; rewrite length_insert; lia).
      simpl. rewrite take_S_insert by lia.
      by rewrite iteration_take by lia.
Qed.

(** C3. [add(v)] returns [false] exactly when [contains(v)] holds, and then
    leaves the Set (and the free store) untouched.  When [contains(v)] is
    false and the buffer has room, or is full and the growth is granted,
    [add(v)] returns [true]: [v] is stored at index [count], [count] grows by
    one, the capacity is unchanged when there was room and
    [max(1, 2 * capacity)] after a growth, and the iteration order is the
    former one with [v] appended at the tail. *)
Theorem add_spec (s : Set_) (v : T) (h : heap) :
  wf s →
  (fst (fst (add v s h)) = Ok false ↔ contains s v = true) ∧
  (contains s v = true → add v s h = (Ok false, s, h)) ∧
  (contains s v = false →
   _num_elements s < _size s ∨ hd true h = true →
   ∃ s',
     add v s h =
       (Ok true, s', if _num_elements s =? _size s then tl h else h) ∧
     wf s' ∧
     _num_elements s' = S (_num_elements s) ∧
     _size s' =
       (if _num_elements s =? _size s then new_size_of true s else _size s) ∧
     at_ (_array s') (_num_elements s) = v ∧
     iteration s' = iteration s ++ [v]).
Proof.
  intros Hwf. pose proof Hwf as [Hlen Hle].
  split; [|split; [apply add_present | by apply add_absent]].
  split.
  - intros Hr. destruct (contains s v) eqn:Hc; [done|]. exfalso.
    destruct (decide (_num_elements s < _size s)) as [Hlt|Hge].
    + destruct (add_absent s v h Hwf Hc (or_introl Hlt)) as (s' & Hadd & _).
      rewrite Hadd in Hr. done.
    + destruct (hd true h) eqn:Hh.
      * destruct (add_absent s v h Hwf Hc (or_intror Hh)) as (s' & Hadd & _).
        rewrite Hadd in Hr. done.
      * rewrite add_grow_fail in Hr by (done || lia). done.
  - intros Hc. by rewrite add_present.
Qed.

(** C4. [remove(v)] finds the first slot [i] whose element is [Equal] to
    [v].  With no such slot the Set is unchanged and [false] is returned.
    Otherwise slot [i] receives the element of the last occupied slot,
    [count] drops by one, the shrink check runs (halving the capacity when
    [count ≤ capacity / 4]) and, the shrink not being refused by the free
    store, [true] is returned; the iteration order afterwards is the former
    one with the last element written into slot [i] and the last slot cut
    off, which is not a left shift. *)
Theorem remove_spec (s : Set_) (v : T) (h : heap) :
  wf s →
  (contains s v = false → remove v s h = (Ok false, s, h)) ∧
  (∀ i, first_hit s v i →
     let last := at_ (_array s) (_num_elements s - 1) in
     let shrink := _num_elements s - 1 <=? _size s / 4 in
     shrink = false ∨ hd true h = true →
     ∃ s',
       remove v s h = (Ok true, s', if shrink then tl h else h) ∧
       wf s' ∧
       _num_elements s' = _num_elements s - 1 ∧
       _size s' = (if shrink then _size s / 2 else _size s) ∧
       iteration s' =
         take (_num_elements s - 1) (<[i := last]> (iteration s)) ∧
       (i < _num_elements s - 1 → iteration s' !! i = Some last) ∧
       (∀ k, k ≠ i → k < _num_elements s - 1 →
          iteration s' !! k = iteration s !! k)).
Proof.
  intros Hwf. pose proof Hwf as [Hlen Hle].
  split; [apply remove_miss|].
  intros i Hfirst last shrink Hgo. pose proof Hfirst as (Hi & _ & _).
  pose proof (iteration_backfill s i Hwf Hi) as Hit.
  assert (∃ s',
    remove v s h = (Ok true, s', if shrink then tl h else h) ∧
    wf s' ∧ _num_elements s' = _num_elements s - 1 ∧
    _size s' = (if shrink then _size s / 2 else _size s) ∧
    iteration s' = take (_num_elements s - 1) (<[i := last]> (iteration s)))
    as (s' & Hrm & Hwf' & Hn' & Hsz' & Hit').
  { rewrite (remove_hit s v h i) by done. subst shrink last.
    destruct (Nat.leb_spec (_num_elements s - 1) (_size s / 4)) as [Hq|Hq].
    - destruct Hgo as [Hgo | Hgo]; [done|]. rewrite Hgo.
      assert (_size s / 4 ≤ _size s / 2) as Hhalf.
      { replace (_size s / 4) with (_size s / 2 / 2)
          by (rewrite Nat.Div0.div_div; done).
        apply Nat.Div0.div_le_upper_bound. lia. }
      eexists. split; [done|].
      assert (_num_elements s - 1 ≤ length (_array (backfill s i)))
        by (simpl; rewrite length_insert; lia).
      repeat split; simpl; try done.
      + rewrite length_app, length_take, length_insert, length_replicate.
        lia.
      + lia.
      + change (<[i:=at_ (_array s) (_num_elements s - 1)]> (_array s))
          with (_array (backfill s i)).
        rewrite iteration_moved by done.
        rewrite <- Hit. by rewrite iteration_take by done.
    - eexists. split; [done|].
      repeat split; simpl; try done.
      + by rewrite length_insert.
      + lia. }
  exists s'. split_and!; try done.
  - intros Hlt. rewrite Hit', lookup_take_lt by done.
    by rewrite list_lookup_insert_eq by (rewrite length_iteration; lia).
  - intros k Hk Hlt. rewrite Hit', lookup_take_lt by done.
    by rewrite list_lookup_insert_ne by done.
Qed.

Lemma wf_backfill (s : Set_) (i : nat) : wf s → wf (backfill s i).
Proof.
  intros [Hlen Hle]; split; simpl; [by rewrite length_insert | lia].
Qed.

(** On a Set without duplicates, under an [Equal] that is an equivalence,
    the slot hit by the scan is the only one [Equal] to the value. *)
Lemma unique_hit_only (s : Set_) (v : T) (i k : nat) :
  equal_equivalence → unique s → first_hit s v i →
  k < _num_elements s → k ≠ i → _equal (at_ (_array s) k) v = false.
Proof.
  intros (_ & Hsym & Htrans) Huniq (Hi & Hhit & _) Hk Hne.
  destruct (_equal (at_ (_array s) k) v) eqn:E; [|done].
  rewrite <- (Huniq k i Hk Hi Hne). symmetry.
  eapply Htrans; [exact E | by apply Hsym].
Qed.

Lemma backfill_gone (s : Set_) (v : T) (i : nat) :
  wf s → equal_equivalence → unique s → first_hit s v i →
  contains (backfill s i) v = false.
Proof.
  intros [Hlen Hle] Heq Huniq Hfirst. pose proof Hfirst as (Hi & _ & _).
  apply contains_false_iff. simpl. intros j Hj.
  destruct (decide (j = i)) as [->|Hne].
  - rewrite at_insert_eq by lia.
    apply (unique_hit_only s v i); [done.. | lia | lia].
  - rewrite at_insert_ne by done.
    apply (unique_hit_only s v i); [done.. | lia | done].
Qed.

(** C1 (amended). When the value is present and the free store refuses the
    buffer of the shrink that follows the removal, the removal has taken
    effect (the hit slot holds the former last element, [count] is one less,
    and on a duplicate-free Set the value is no longer contained), the
    buffer keeps its capacity, and [remove] is left by [std::bad_alloc]: the
    failure reaches the caller and no [true] is returned. *)
Theorem remove_shrink_refused (s : Set_) (v : T) (h : heap) :
  wf s →
  contains s v = true →
  _num_elements s - 1 ≤ _size s / 4 →
  hd true h = false →
  ∃ i,
    first_hit s v i ∧
    remove v s h = (Throw bad_alloc, backfill s i, tl h) ∧
    _num_elements (backfill s i) = _num_elements s - 1 ∧
    _size (backfill s i) = _size s ∧
    length (_array (backfill s i)) = _size s ∧
    iteration (backfill s i) =
      take (_num_elements s - 1)
        (<[i := at_ (_array s) (_num_elements s - 1)]> (iteration s)) ∧
    (equal_equivalence → unique s → contains (backfill s i) v = false).
Proof.
  intros Hwf Hc Hq Hh.
  destruct (first_hit_exists s v Hc) as [i Hfirst].
  pose proof Hfirst as (Hi & _ & _). pose proof Hwf as [Hlen Hle].
  exists i. split_and!; try done.
  - rewrite (remove_hit s v h i) by done.
    destruct (Nat.leb_spec (_num_elements s - 1) (_size s / 4)); [|lia].
    by rewrite Hh.
  - simpl. by rewrite length_insert.
  - by apply iteration_backfill.
  - intros. by apply backfill_gone.
Qed.

(** What [remove] leaves behind once the scan has hit slot [i], whatever
    the free store answers. *)
Lemma remove_hit_outcome (s : Set_) (v : T) (h : heap) (i : nat) :
  wf s → first_hit s v i →
  ∃ r s' h',
    remove v s h = (r, s', h') ∧
    wf s' ∧
    _num_elements s' = _num_elements s - 1 ∧
    iteration s' = iteration (backfill s i) ∧
    (h' = h ∨ h' = tl h) ∧
    (hd true h = true → r = Ok true).
Proof.
  intros Hwf Hfirst. pose proof Hfirst as (Hi & _ & _).
  pose proof Hwf as [Hlen Hle]. pose proof (wf_backfill s i Hwf) as Hwfb.
  rewrite (remove_hit s v h i) by done.
  destruct (_ <=? _) eqn:Hq; [destruct (hd true h) eqn:Hh|].
  - apply Nat.leb_le in Hq.
    assert (_size s / 4 ≤ _size s / 2) as Hhalf.
    { replace (_size s / 4) with (_size s / 2 / 2)
        by (rewrite Nat.Div0.div_div; done).
      apply Nat.Div0.div_le_upper_bound. lia. }
    assert (_num_elements s - 1 ≤ length (_array (backfill s i)))
      by (simpl; rewrite length_insert; lia).
    do 3 eexists. split_and!; [done | | done | | by right | done].
    + by apply wf_moved; [|lia].
    + rewrite iteration_moved by done. by rewrite iteration_take.
  - do 3 eexists. split_and!; [done.. | by right | done].
  - do 3 eexists. split_and!; [done.. | by left | done].
Qed.

(** C10. For a value [v] that the Set does not contain (and that is [Equal]
    to itself), [add(v)] followed by [remove(v)] gives back the element
    sequence of the Set: the same elements in the same slots [[0, count)],
    with the same [count]; both calls return [true] when the free store
    grants their requests. *)
Theorem add_remove_restores (s : Set_) (v : T) (h : heap) :
  wf s →
  contains s v = false →
  _equal v v = true →
  ∃ r1 s1 h1 r2 s2 h2,
    add v s h = (r1, s1, h1) ∧
    remove v s1 h1 = (r2, s2, h2) ∧
    wf s2 ∧
    _num_elements s2 = _num_elements s ∧
    iteration s2 = iteration s ∧
    (alloc_ok h → r1 = Ok true ∧ r2 = Ok true).
Proof.
  intros Hwf Hc Hrefl. pose proof Hwf as [Hlen Hle].
  destruct (decide (_num_elements s < _size s ∨ hd true h = true))
    as [Hroom|Hfull].
  - destruct (add_absent s v h Hwf Hc Hroom)
      as (s1 & Hadd & Hwf1 & Hn1 & _ & Hat & Hit1).
    assert (first_hit s1 v (_num_elements s)) as Hfirst.
    { split_and!; [lia | by rewrite Hat |].
      intros j Hj.
      assert (at_ (_array s1) j = at_ (_array s) j) as ->.
      { apply (inj Some). rewrite <- !iteration_lookup by lia.
        rewrite Hit1, lookup_app_l by (rewrite length_iteration; lia). done. }
      rewrite contains_false_iff in Hc. by apply Hc. }
    destruct (remove_hit_outcome s1 v
                (if _num_elements s =? _size s then tl h else h)
                (_num_elements s) Hwf1 Hfirst)
      as (r2 & s2 & h2 & Hrm & Hwf2 & Hn2 & Hit2 & _ & Hr2).
    do 6 eexists. split_and!; [done | done | done | lia | |].
    + rewrite Hit2, iteration_backfill by (done || lia).
      rewrite Hn1, Hit1. simpl. rewrite Nat.sub_0_r.
      rewrite take_insert_ge by done.
      by rewrite take_app_length' by (by rewrite length_iteration).
    + intros Hok. split; [done|]. apply Hr2.
      destruct (_ =? _); [apply alloc_ok_hd, alloc_ok_tl, Hok|].
      by apply alloc_ok_hd.
  - assert (_num_elements s = _size s) as Heq by lia.
    assert (hd true h = false) as Hh
      by (destruct (hd true h); [exfalso; apply Hfull; by right | done]).
    do 6 eexists. split_and!.
    + by apply add_grow_fail.
    + by apply remove_miss.
    + done.
    + done.
    + done.
    + intros Hok%alloc_ok_hd. congruence.
Qed.

(** ** Copy construction and assignment *)

Lemma copy_ctor_loop_eq (other : Set_) (n i : nat) (s : Set_) (h : heap) :
  copy_ctor_loop other n i s h =
  (Ok tt,
   mkSet (copy_loop n i (_array other) (_array s)) (_size s)
         (_num_elements s + n),
   h).
Proof.
  revert i s; induction n as [|n IH]; intros i s; simpl.
  - unfold ret. destruct s; simpl. by rewrite Nat.add_0_r.
  - unfold bind, get, put. rewrite IH. simpl. do 3 f_equal. lia.
Qed.

Lemma copy_ctor_eq (other : Set_) (h : heap) :
  wf other →
  copy_ctor other h =
  if hd true h then
    (Ok (mkSet (take (_num_elements other) (_array other) ++
                replicate (_size other - _num_elements other) T_default)
               (_size other) (_num_elements other)),
     tl h)
  else (Throw bad_alloc, tl h).
Proof.
  intros [Hlen Hle].
  unfold copy_ctor, local_, try_catch, bind, get, put, empty_, throw.
  rewrite new_array_eq. destruct (hd true h); [|done].
  rewrite copy_ctor_loop_eq. simpl.
  rewrite copy_loop_0 by (rewrite ?length_replicate; lia).
  by rewrite drop_replicate.
Qed.

Lemma operator_assign_eq (other this : Set_) (h : heap) :
  wf other →
  operator_assign other this h =
  if hd true h then
    (Ok tt,
     mkSet (take (_num_elements other) (_array other) ++
            replicate (_size other - _num_elements other) T_default)
           (_size other) (_num_elements other),
     tl h)
  else (Throw bad_alloc, this, tl h).
Proof.
  intros Hwf. unfold operator_assign. rewrite copy_ctor_eq by done.
  by destruct (hd true h).
Qed.

(** ** The resize policy along sequences of operations *)

(** Linear arithmetic with the quotients by a constant of the policy. *)
Ltac div_facts :=
  repeat match goal with
  | |- context [?a / ?b] =>
      lazymatch goal with
      | _ : a = b * (a / b) + a mod b |- _ => fail
      | _ => pose proof (Nat.div_mod_eq a b);
             pose proof (Nat.mod_upper_bound a b ltac:(lia))
      end
  | _ : context [?a / ?b] |- _ =>
      lazymatch goal with
      | _ : a = b * (a / b) + a mod b |- _ => fail
      | _ => pose proof (Nat.div_mod_eq a b);
             pose proof (Nat.mod_upper_bound a b ltac:(lia))
      end
  end.

Ltac div_lia := div_facts; lia.

Lemma wf_default : wf Set_default.
Proof. split; simpl; [done | lia]. Qed.

Lemma occupancy_default : occupancy Set_default.
Proof. right. simpl. lia. Qed.

Lemma add_outcome (s : Set_) (v : T) (h : heap) :
  wf s →
  ∃ r s' h',
    add v s h = (r, s', h') ∧
    wf s' ∧
    (h' = h ∨ h' = tl h) ∧
    (hd true h = true → occupancy s → occupancy s').
Proof.
  intros Hwf. pose proof Hwf as [Hlen Hle].
  destruct (contains s v) eqn:Hc.
  { do 3 eexists. split; [by apply add_present|]. split_and!; auto. }
  destruct (decide (_num_elements s < _size s ∨ hd true h = true))
    as [Hroom|Hfull].
  - destruct (add_absent s v h Hwf Hc Hroom)
      as (s' & Hadd & Hwf' & Hn' & Hsz' & _).
    do 3 eexists. split; [done|]. split_and!; [done | | ].
    + destruct (_ =? _); auto.
    + intros _ Hocc. left. rewrite Hn', Hsz'. unfold occupancy in Hocc.
      destruct (Nat.eqb_spec (_num_elements s) (_size s)) as [Heq|Hne].
      * unfold new_size_of. destruct (Nat.ltb_spec 0 (_size s)); div_lia.
      * div_lia.
  - do 3 eexists. split; [apply add_grow_fail; [done | lia |]|].
    + destruct (hd true h); [exfalso; apply Hfull; by right | done].
    + split_and!; [done | by right |].
      intros Hh. exfalso. apply Hfull. by right.
Qed.

Lemma remove_outcome (s : Set_) (v : T) (h : heap) :
  wf s →
  ∃ r s' h',
    remove v s h = (r, s', h') ∧
    wf s' ∧
    (h' = h ∨ h' = tl h) ∧
    (hd true h = true → occupancy s → occupancy s').
Proof.
  intros Hwf. pose proof Hwf as [Hlen Hle].
  destruct (contains s v) eqn:Hc.
  2: { do 3 eexists. split; [by apply remove_miss|]. split_and!; auto. }
  destruct (first_hit_exists s v Hc) as [i Hfirst].
  pose proof Hfirst as (Hi & _ & _). pose proof (wf_backfill s i Hwf) as Hwfb.
  rewrite (remove_hit s v h i) by done.
  destruct (Nat.leb_spec (_num_elements s - 1) (_size s / 4)) as [Hq|Hq];
    [destruct (hd true h) eqn:Hh|].
  - do 3 eexists. split; [done|]. split_and!; [ | by right | ].
    + apply wf_moved; [simpl; rewrite length_insert; lia | div_lia].
    + intros _ Hocc. unfold occupancy in *. simpl. div_lia.
  - do 3 eexists. split; [done|]. split_and!; [done | by right | done].
  - do 3 eexists. split; [done|]. split_and!; [done | by left |].
    intros _ _. left. simpl. lia.
Qed.

Lemma copy_ctor_outcome (s : Set_) (h : heap) :
  wf s →
  (hd true h = false ∧ copy_ctor s h = (Throw bad_alloc, tl h)) ∨
  (∃ s', hd true h = true ∧ copy_ctor s h = (Ok s', tl h) ∧ wf s' ∧
         _size s' = _size s ∧ _num_elements s' = _num_elements s ∧
         iteration s' = iteration s).
Proof.
  intros Hwf. pose proof Hwf as [Hlen Hle].
  rewrite copy_ctor_eq by done.
  destruct (hd true h); [right | by left].
  eexists. split_and!; try done.
  - by apply wf_moved; lia.
  - rewrite iteration_moved by lia. by rewrite iteration_take by lia.
Qed.

Lemma occupancy_sizes (s s' : Set_) :
  _size s' = _size s → _num_elements s' = _num_elements s →
  occupancy s → occupancy s'.
Proof. unfold occupancy. by intros -> ->. Qed.

Lemma step_invariant (o : op) (this other : Set_) (h : heap) :
  wf this → wf other →
  ∃ this' other' h',
    step (this, other, h) o = (this', other', h') ∧
    wf this' ∧ wf other' ∧
    (h' = h ∨ h' = tl h) ∧
    (hd true h = true → occupancy this → occupancy other →
     occupancy this' ∧ occupancy other').
Proof.
  intros Hwf1 Hwf2. destruct o as [v|v| | | |]; simpl.
  - destruct (add_outcome this v h Hwf1) as (r & s' & h' & -> & ? & ? & ?).
    do 3 eexists. split; [done|]. split_and!; auto.
  - destruct (remove_outcome this v h Hwf1) as (r & s' & h' & -> & ? & ? & ?).
    do 3 eexists. split; [done|]. split_and!; auto.
  - do 3 eexists. split; [done|].
    split_and!; [apply wf_default | done | by left |].
    intros _ _ ?. split; [apply occupancy_default | done].
  - unfold operator_assign.
    destruct (copy_ctor_outcome other h Hwf2)
      as [[Hh ->] | (s' & Hh & -> & Hwf' & Hsz & Hn & _)].
    + do 3 eexists. split; [done|]. split_and!; [done | done | by right |].
      congruence.
    + do 3 eexists. split; [done|].
      split_and!; [by destruct s' | done | by right |].
      intros _ _ Hocc. split; [|done].
      by apply (occupancy_sizes other).
  - destruct (copy_ctor_outcome this h Hwf1)
      as [[Hh ->] | (s' & Hh & -> & Hwf' & Hsz & Hn & _)].
    + do 3 eexists. split; [done|]. split_and!; [done | done | by right |].
      congruence.
    + do 3 eexists. split; [done|]. split_and!; [done | done | by right |].
      intros _ Hocc _. split; [done|]. by apply (occupancy_sizes this).
  - do 3 eexists. split; [done|].
    split_and!; [by destruct other | by destruct this | by left |].
    intros _ ? ?. split; [by destruct other | by destruct this].
Qed.

(** C2 (amended). Along every finite sequence of [add], [remove], [empty],
    copy construction, copy assignment and [swap] on well-formed Sets,
    [count ≤ capacity] holds after each operation, whatever the free store
    answers.  When moreover the Sets start within the occupancy bound (as
    the empty Set does) and every allocation is granted, then after each
    operation either [count > capacity / 4], or the Set is empty with a
    capacity of at most one slot. *)
Theorem resize_correctness (ops : list op) (this other : Set_) (h : heap) :
  wf this → wf other →
  ∃ this' other' h',
    run ops (this, other, h) = (this', other', h') ∧
    (_num_elements this' ≤ _size this' ∧
     _num_elements other' ≤ _size other') ∧
    (alloc_ok h → occupancy this → occupancy other →
     occupancy this' ∧ occupancy other').
Proof.
  revert this other h. unfold run.
  induction ops as [|o ops IH]; intros this other h Hwf1 Hwf2;
    cbn [fold_left].
  { do 3 eexists. split; [done|]. split; [|done].
    destruct Hwf1, Hwf2. done. }
  destruct (step_invariant o this other h Hwf1 Hwf2)
    as (this1 & other1 & h1 & -> & Hwf1' & Hwf2' & Hh1 & Hocc1).
  destruct (IH this1 other1 h1 Hwf1' Hwf2')
    as (this' & other' & h' & -> & Hle & Hocc).
  do 3 eexists. split; [done|]. split; [done|].
  intros Hok Ho1 Ho2.
  destruct (Hocc1 (alloc_ok_hd h Hok) Ho1 Ho2) as [Ho1' Ho2'].
  apply Hocc; [|done..].
  destruct Hh1 as [->| ->]; [done | by apply alloc_ok_tl].
Qed.

(** ** Equality, indexed access and printing *)

Lemma existsb_perm (f : T → bool) (l l' : list T) :
  l ≡ₚ l' → existsb f l = existsb f l'.
Proof.
  induction 1 as [|x l l' _ IH|x y l|l1 l2 l3 _ IH1 _ IH2]; simpl.
  - done.
  - by rewrite IH.
  - by destruct (f x), (f y).
  - congruence.
Qed.

Lemma forallb_perm (f : T → bool) (l l' : list T) :
  l ≡ₚ l' → forallb f l = forallb f l'.
Proof.
  induction 1 as [|x l l' _ IH|x y l|l1 l2 l3 _ IH1 _ IH2]; simpl.
  - done.
  - by rewrite IH.
  - by destruct (f x), (f y).
  - congruence.
Qed.

Lemma forallb_ext (f g : T → bool) (l : list T) :
  (∀ x, f x = g x) → forallb f l = forallb g l.
Proof.
  intros Hfg. induction l as [|x l IH]; simpl; [done|].
  by rewrite Hfg, IH.
Qed.

Lemma eq_loop_forallb (this other : Set_) (n i : nat) :
  eq_loop this other n i =
  forallb (contains this) (iteration_from other n i).
Proof.
  revert i; induction n as [|n IH]; intros i; simpl; [done|].
  rewrite IH. unfold deref. by destruct (contains this _).
Qed.

Lemma operator_eq_alt (a b : Set_) :
  operator_eq a b =
  (_num_elements a =? _num_elements b) &&
  forallb (λ x, existsb (λ y, _equal y x) (iteration a)) (iteration b).
Proof.
  unfold operator_eq.
  destruct (Nat.eqb_spec (_num_elements a) (_num_elements b)) as [Hn|Hn];
    simpl; [|done].
  rewrite eq_loop_forallb, Hn, <- iteration_unfold.
  apply forallb_ext. intros x. apply contains_existsb.
Qed.

(** C5. [a == b] is [true] exactly when the two Sets have the same [count]
    and every element of [b] is found by [a.contains]; the answer depends
    only on which elements each Set holds, not on the slots they sit in:
    reordering the occupied range of either Set does not change it. *)
Theorem operator_eq_spec (a b : Set_) :
  (operator_eq a b = true ↔
   _num_elements a = _num_elements b ∧
   ∀ x, x ∈ iteration b → contains a x = true) ∧
  (∀ a' b',
     iteration a ≡ₚ iteration a' → iteration b ≡ₚ iteration b' →
     operator_eq a' b' = operator_eq a b).
Proof.
  split.
  - rewrite operator_eq_alt, andb_true_iff, Nat.eqb_eq, forallb_forall.
    split; intros [Hn Hall]; (split; [done|]); intros x Hx.
    + rewrite contains_existsb. apply Hall. by apply list_elem_of_In.
    + rewrite <- contains_existsb. apply Hall. by apply list_elem_of_In.
  - intros a' b' Ha Hb. rewrite !operator_eq_alt.
    rewrite <- !length_iteration.
    rewrite <- (Permutation_length Ha), <- (Permutation_length Hb).
    f_equal. rewrite <- (forallb_perm _ _ _ Hb).
    apply forallb_ext. intros x. symmetry. by apply existsb_perm.
Qed.

(** C8. For an [int] index, [operator[]] returns the element of slot
    [index] exactly when [0 ≤ index < count], and throws
    [std::out_of_range], with no element produced, for every other index.
    A negative index is turned down by the test [index < 0] itself,
    whatever its conversion to [size_t] would give. *)
Theorem operator_index_spec (s : Set_) (index : Z) :
  (int_range index →
   ((0 ≤ index < Z.of_nat (_num_elements s))%Z →
    operator_index s index = Ok (at_ (_array s) (Z.to_nat index))) ∧
   (¬ (0 ≤ index < Z.of_nat (_num_elements s))%Z →
    operator_index s index = Throw out_of_range)) ∧
  ((index < 0)%Z →
   ∀ s' : Set_, operator_index s' index = Throw out_of_range).
Proof.
  split.
  - intros [Hlo Hhi]. unfold operator_index, to_size_t.
    destruct (Z.ltb_spec index 0) as [Hneg|Hpos]; simpl.
    { split; [lia | done]. }
    rewrite Z.mod_small by lia.
    destruct (Z.leb_spec (Z.of_nat (_num_elements s)) index);
      split; (done || lia).
  - intros Hneg s'. unfold operator_index.
    by destruct (Z.ltb_spec index 0); [|lia].
Qed.

Lemma string_app_assoc (a b c : string) : (a +:+ b) +:+ c = a +:+ b +:+ c.
Proof.
  induction a as [|x a IH]; [done|].
  change (String x ((a +:+ b) +:+ c) = String x (a +:+ b +:+ c)).
  by f_equal.
Qed.

Lemma string_app_empty (a : string) : a +:+ EmptyString = a.
Proof.
  induction a as [|x a IH]; [done|].
  change (String x (a +:+ EmptyString) = String x a). by f_equal.
Qed.

Lemma out_loop_eq (set : Set_) (n i : nat) (os : string) :
  out_loop set n i os =
  os +:+ foldr (λ e acc, " (" +:+ T_show e +:+ ")" +:+ acc) EmptyString
           (iteration_from set n i).
Proof.
  revert i os; induction n as [|n IH]; intros i os;
    cbn [out_loop iteration_from foldr].
  - by rewrite string_app_empty.
  - rewrite IH. unfold deref. by rewrite !string_app_assoc.
Qed.

(** C9. Written to a stream, a Set is its [count] in decimal followed, for
    each element in iteration order, by a space and the element's own text
    between parentheses; an empty Set is printed as ["0"]. *)
Theorem operator_out_spec (os : string) (s : Set_) :
  operator_out os s =
    os +:+ pretty (_num_elements s) +:+
    foldr (λ e acc, " (" +:+ T_show e +:+ ")" +:+ acc) EmptyString (iteration s) ∧
  (_num_elements s = 0 → operator_out EmptyString s = "0").
Proof.
  split.
  - unfold operator_out.
    by rewrite out_loop_eq, iteration_unfold, string_app_assoc.
  - intros Hn. unfold operator_out. by rewrite Hn.
Qed.

(** ** Set algebra *)

Lemma contains_default (x : T) : contains Set_default x = false.
Proof. done. Qed.

Lemma contains_iteration (s s' : Set_) (x : T) :
  iteration s' = iteration s → contains s' x = contains s x.
Proof. intros Hit. by rewrite !contains_existsb, Hit. Qed.

Lemma contains_snoc (s s' : Set_) (x y : T) :
  iteration s' = iteration s ++ [x] →
  contains s' y = contains s y || _equal x y.
Proof.
  intros Hit. rewrite !contains_existsb, Hit, existsb_app. simpl.
  by rewrite orb_false_r.
Qed.

Lemma iteration_from_In (src : Set_) (n it : nat) (y : T) :
  In y (iteration_from src n it) →
  ∃ j, it ≤ j < it + n ∧ y = at_ (_array src) j.
Proof.
  rewrite iteration_from_seq, in_map_iff.
  intros (j & <- & Hj%in_seq). by exists j.
Qed.

Lemma bind_ok {A B} (m : M A) (k : A → M B)
    (s : Set_) (h : heap) (a : A) (s' : Set_) (h' : heap) :
  m s h = (Ok a, s', h') → bind m k s h = k a s' h'.
Proof. intros Hm. unfold bind. by rewrite Hm. Qed.

(** The loop shared by [operator+] (with [p] constantly [true]),
    [operator-] and [filter_out]: over a range of [src] without duplicates,
    with every request granted, it appends the elements that pass [p] and
    that the Set did not hold, in the order of [src]. *)
Lemma for_each_add (src : Set_) (p : T → bool) (n : nat)
    (it : const_iterator) (s : Set_) (h : heap) :
  wf s → alloc_ok h →
  (∀ i j, it ≤ i → i < j → j < it + n →
     _equal (at_ (_array src) i) (at_ (_array src) j) = false) →
  ∃ s' h',
    for_each src (λ x, if p x then bind (add x) (λ _, ret tt) else ret tt)
      n it s h = (Ok tt, s', h') ∧
    wf s' ∧ alloc_ok h' ∧
    iteration s' =
      iteration s ++
      List.filter (λ x, p x && negb (contains s x))
        (iteration_from src n it).
Proof.
  revert it s h; induction n as [|n IH]; intros it s h Hwf Hok Huniq.
  { do 2 eexists. split_and!; [done.. |]. simpl. by rewrite app_nil_r. }
  cbn [for_each iteration_from List.filter]. unfold deref.
  set (x := at_ (_array src) it).
  assert (∀ i j, S it ≤ i → i < j → j < S it + n →
            _equal (at_ (_array src) i) (at_ (_array src) j) = false)
    as Huniq' by (intros i j ? ? ?; apply Huniq; lia).
  destruct (p x) eqn:Hp; [destruct (contains s x) eqn:Hc|];
    cbn [andb negb].
  - rewrite (bind_ok _ _ s h tt s h)
      by (by rewrite (bind_ok _ _ s h false s h) by by apply add_present).
    by apply IH.
  - destruct (add_absent s x h Hwf Hc (or_intror (alloc_ok_hd h Hok)))
      as (s1 & Hadd & Hwf1 & _ & _ & _ & Hit1).
    rewrite (bind_ok _ _ s h tt s1
               (if _num_elements s =? _size s then tl h else h))
      by (by rewrite (bind_ok _ _ _ _ _ _ _ Hadd)).
    destruct (IH (S it) s1 (if _num_elements s =? _size s then tl h else h))
      as (s' & h' & -> & Hwf' & Hok' & Hit'); [done | | done |].
    { destruct (_ =? _); [by apply alloc_ok_tl | done]. }
    do 2 eexists. split_and!; [done.. |].
    rewrite Hit', Hit1, <- app_assoc. simpl. do 2 f_equal.
    apply filter_ext_in. intros y (j & Hj & ->)%iteration_from_In.
    rewrite (contains_snoc s s1 x) by done.
    unfold x. rewrite (Huniq it j) by lia. by rewrite orb_false_r.
  - rewrite (bind_ok _ _ s h tt s h) by done. by apply IH.
Qed.

(** [catch] and the hand-out of the local object, when the body ends
    normally. *)
Lemma local_try_ok {A} (body : M A) (handler : exn → M A)
    (obj obj' : Set_) (h h' : heap) (a : A) :
  body obj h = (Ok a, obj', h') →
  local_ (try_catch body handler) obj h = (Ok obj', h').
Proof. intros Hb. unfold local_, try_catch. by rewrite Hb. Qed.

(** C6. With every allocation granted, [a - b] is a new Set whose
    iteration order is that of [a] restricted to the elements that
    [b.contains] finds: an intersection.  [a] and [b] are taken by
    reference to [const] and are only read. *)
Theorem operator_minus_spec (a b : Set_) (h : heap) :
  unique a → alloc_ok h →
  ∃ r h',
    operator_minus a b h = (Ok r, h') ∧
    wf r ∧
    iteration r = List.filter (contains b) (iteration a) ∧
    (∀ x, x ∈ iteration r ↔ x ∈ iteration a ∧ contains b x = true).
Proof.
  intros Huniq Hok.
  destruct (for_each_add a (contains b) (end_ a - begin_ a) (begin_ a)
              Set_default h wf_default Hok)
    as (r & h' & Hloop & Hwf & _ & Hit).
  { unfold end_, begin_. intros i j ? ? ?. apply Huniq; lia. }
  assert (iteration r = List.filter (contains b) (iteration a)) as Hit'.
  { rewrite Hit. change (iteration Set_default) with (@nil T).
    cbn [app]. apply filter_ext. intros x.
    by rewrite contains_default, andb_true_r. }
  exists r, h'. split_and!; [|done..|].
  - unfold operator_minus. by apply (local_try_ok _ _ _ _ _ _ tt).
  - intros x. rewrite Hit', !list_elem_of_In, filter_In. done.
Qed.

(** C7. With every allocation granted, [a + b] is a new Set that starts
    as a copy of [a] and receives the elements of [b] through [add]: its
    iteration order is that of [a], followed by the elements of [b] that
    [a.contains] does not find, in the order of [b].  [a] and [b] are taken
    by reference to [const] and are only read. *)
Theorem operator_plus_spec (a b : Set_) (h : heap) :
  wf a → unique b → alloc_ok h →
  ∃ r h',
    operator_plus a b h = (Ok r, h') ∧
    wf r ∧
    iteration r =
      iteration a ++ List.filter (λ x, negb (contains a x)) (iteration b).
Proof.
  intros Hwfa Huniq Hok. unfold operator_plus.
  destruct (copy_ctor_outcome a h Hwfa)
    as [[Hh _] | (new_set & _ & -> & Hwf0 & _ & _ & Hit0)].
  { apply alloc_ok_hd in Hok. congruence. }
  destruct (for_each_add b (λ _, true) (end_ b - begin_ b) (begin_ b)
              new_set (tl h) Hwf0 (alloc_ok_tl h Hok))
    as (r & h' & Hloop & Hwf & _ & Hit).
  { unfold end_, begin_. intros i j ? ? ?. apply Huniq; lia. }
  exists r, h'. split_and!; [|done|].
  - by apply (local_try_ok _ _ _ _ _ _ tt).
  - rewrite Hit, Hit0. f_equal. apply filter_ext. intros x. simpl.
    by rewrite (contains_iteration a new_set).
Qed.

(** * Further properties of the class *)

(** ** Exception safety and membership of [add] and [remove] *)


(** X2. After a call of [add(v)] that returns, [contains(w)] holds exactly
    for the values it held for before and, when the call returned [true],
    for those that [v] is [Equal] to. *)
Theorem add_contains (s : Set_) (v : T) (h : heap)
    (b : bool) (s' : Set_) (h' : heap) :
  wf s →
  add v s h = (Ok b, s', h') →
  ∀ w, contains s' w = contains s w || (b && _equal v w).
Proof.
  intros Hwf Hadd w.
  destruct (contains s v) eqn:Hc.
  { rewrite add_present in Hadd by done.
    injection Hadd as <- <- <-. by rewrite orb_false_r. }
  destruct (decide (_num_elements s < _size s ∨ hd true h = true))
    as [Hroom|Hfull].
  - destruct (add_absent s v h Hwf Hc Hroom)
      as (s1 & Hadd1 & _ & _ & _ & _ & Hit).
    rewrite Hadd1 in Hadd. injection Hadd as <- <- <-.
    by apply contains_snoc.
  - destruct Hwf as [Hlen Hle].
    rewrite add_grow_fail in Hadd; [done | done | lia |].
    destruct (hd true h); [exfalso; apply Hfull; by right | done].
Qed.

Lemma swap_remove_perm (l : list T) (i : nat) (d : T) :
  i < length l →
  l ≡ₚ nth i l d :: take (length l - 1) (<[i := nth (length l - 1) l d]> l).
Proof.
  intros Hi.
  destruct l as [|x0 l0] using rev_ind; [simpl in Hi; lia|]. clear IHl0.
  rename l0 into init. rewrite length_app in *. simpl in *.
  replace (length init + 1 - 1) with (length init) by lia.
  assert (nth (length init) (init ++ [x0]) d = x0) as Hlast
    by (rewrite app_nth2, Nat.sub_diag; [done | lia]).
  rewrite Hlast.
  destruct (decide (i = length init)) as [->|Hne].
  - rewrite Hlast, take_insert_ge by lia.
    rewrite take_app_length. by rewrite Permutation_app_comm.
  - assert (i < length init) as Hi' by lia.
    rewrite app_nth1 by done.
    rewrite insert_app_l by done.
    rewrite take_app_length' by (by rewrite length_insert).
    destruct (lookup_lt_is_Some_2 init i Hi') as [x Hx].
    rewrite (nth_lookup_Some _ _ _ _ Hx).
    rewrite <- (take_drop_middle init i x Hx) at 1.
    rewrite insert_take_drop by done.
    rewrite <- !app_assoc. simpl.
    rewrite <- Permutation_middle.
    rewrite (Permutation_app_comm (drop (S i) init) [x0]). simpl.
    by rewrite <- Permutation_middle.
Qed.

Lemma iteration_at (s : Set_) (i : nat) :
  i < _num_elements s → nth i (iteration s) T_default = at_ (_array s) i.
Proof.
  intros Hi. by rewrite (nth_lookup_Some _ _ _ _ (iteration_lookup s i Hi)).
Qed.



(** ** Sets without duplicates *)

Lemma unique_distinct (s : Set_) : unique s ↔ distinct (iteration s).
Proof.
  split.
  - intros Huniq i j x y Hx Hy Hne.
    pose proof (lookup_lt_Some _ _ _ Hx) as Hi.
    pose proof (lookup_lt_Some _ _ _ Hy) as Hj.
    rewrite length_iteration in Hi, Hj.
    rewrite iteration_lookup in Hx, Hy by done.
    injection Hx as <-. injection Hy as <-. by apply Huniq.
  - intros Hd i j Hi Hj Hne.
    apply (Hd i j); [by apply iteration_lookup.. | done].
Qed.

Lemma distinct_perm (l l' : list T) : l ≡ₚ l' → distinct l' → distinct l.
Proof.
  intros (_ & f & Hinj & Hf)%Permutation_inj Hd i j x y Hx Hy Hne.
  rewrite Hf in Hx, Hy. apply (Hd (f i) (f j)); [done.. |].
  intros Heq. by apply Hne, Hinj.
Qed.

Lemma distinct_cons (x : T) (l : list T) :
  distinct (x :: l) ↔
  (∀ y, y ∈ l → _equal x y = false ∧ _equal y x = false) ∧ distinct l.
Proof.
  split.
  - intros Hd. split.
    + intros y [k Hk]%list_elem_of_lookup. split.
      * by apply (Hd 0 (S k)).
      * by apply (Hd (S k) 0).
    + intros i j a b Ha Hb Hne. by apply (Hd (S i) (S j)); [| |lia].
  - intros [Hx Hd] i j a b Ha Hb Hne.
    destruct i as [|i], j as [|j]; simpl in *; [done | | |].
    + injection Ha as <-. apply Hx. by eapply list_elem_of_lookup_2.
    + injection Hb as <-. apply Hx. by eapply list_elem_of_lookup_2.
    + apply (Hd i j); [done.. | lia].
Qed.

Lemma distinct_nil : distinct [].
Proof. intros i j x y Hx. by rewrite lookup_nil in Hx. Qed.

Lemma distinct_app (l1 l2 : list T) :
  distinct (l1 ++ l2) ↔
  distinct l1 ∧ distinct l2 ∧
  ∀ x y, x ∈ l1 → y ∈ l2 → _equal x y = false ∧ _equal y x = false.
Proof.
  induction l1 as [|a l1 IH]; simpl.
  - split; [|by intros (_ & ? & _)].
    intros Hd. split_and!; [apply distinct_nil | done |].
    intros x y Hx. by apply elem_of_nil in Hx.
  - rewrite !distinct_cons, IH. split.
    + intros (Ha & Hd1 & Hd2 & Hcross). split_and!; [| done | done |].
      * intros y Hy. apply Ha, elem_of_app. by left.
      * intros x y [->|Hx]%elem_of_cons Hy; [|by apply Hcross].
        apply Ha, elem_of_app. by right.
    + intros ((Ha & Hd1) & Hd2 & Hcross). split_and!; [| done | done |].
      * intros y [Hy|Hy]%elem_of_app; [by apply Ha|].
        apply Hcross; [by left | done].
      * intros x y Hx Hy. apply Hcross; [by right | done].
Qed.

Lemma distinct_filter (p : T → bool) (l : list T) :
  distinct l → distinct (List.filter p l).
Proof.
  induction l as [|a l IH]; simpl; [done|].
  rewrite distinct_cons. intros [Ha Hd].
  destruct (p a); [|by apply IH].
  apply distinct_cons. split; [|by apply IH].
  intros y [Hy _]%list_elem_of_In%filter_In. by apply Ha, list_elem_of_In.
Qed.

Lemma contains_false_elem (s : Set_) (v y : T) :
  contains s v = false → y ∈ iteration s → _equal y v = false.
Proof.
  rewrite contains_existsb. intros Hex Hy%list_elem_of_In.
  destruct (_equal y v) eqn:E; [|done].
  rewrite <- Hex. symmetry. apply existsb_exists. by exists y.
Qed.

Lemma symmetric_false (x y : T) :
  (∀ x y, _equal x y = true → _equal y x = true) →
  _equal x y = false → _equal y x = false.
Proof.
  intros Hsym Hxy. destruct (_equal y x) eqn:E; [|done].
  apply Hsym in E. congruence.
Qed.

(** The two ways [add] can leave the Set. *)
Lemma add_cases (s : Set_) (v : T) (h : heap)
    (r : result bool) (s' : Set_) (h' : heap) :
  wf s → add v s h = (r, s', h') →
  s' = s ∨
  (contains s v = false ∧ r = Ok true ∧ iteration s' = iteration s ++ [v] ∧
   _size s' =
     (if _num_elements s =? _size s then new_size_of true s else _size s)).
Proof.
  intros Hwf Hadd. pose proof Hwf as [Hlen Hle].
  destruct (contains s v) eqn:Hc.
  { rewrite add_present in Hadd by done. left. by injection Hadd. }
  destruct (decide (_num_elements s < _size s ∨ hd true h = true))
    as [Hroom|Hfull].
  - destruct (add_absent s v h Hwf Hc Hroom)
      as (s1 & Hadd1 & _ & _ & Hsz & _ & Hit).
    rewrite Hadd1 in Hadd. injection Hadd as <- <- <-. by right.
  - rewrite add_grow_fail in Hadd; [left; by injection Hadd | done | lia |].
    destruct (hd true h); [exfalso; apply Hfull; by right | done].
Qed.

(** The two ways [remove] can leave the Set. *)
Lemma remove_cases (s : Set_) (v : T) (h : heap)
    (r : result bool) (s' : Set_) (h' : heap) :
  wf s → remove v s h = (r, s', h') →
  (contains s v = false ∧ s' = s ∧ r = Ok false ∧ h' = h) ∨
  (∃ i, first_hit s v i ∧
        iteration s ≡ₚ at_ (_array s) i :: iteration s' ∧
        iteration s' = iteration (backfill s i) ∧
        _num_elements s' + 1 = _num_elements s ∧
        (_size s' = _size s ∨ _size s' = _size s / 2)).
Proof.
  intros Hwf Hrm. pose proof Hwf as [Hlen Hle].
  destruct (contains s v) eqn:Hc.
  2: { rewrite remove_miss in Hrm by done. left. by injection Hrm as <- <- <-. }
  right. destruct (first_hit_exists s v Hc) as [i Hfirst].
  pose proof Hfirst as (Hi & _ & _). exists i.
  pose proof (swap_remove_perm (iteration s) i T_default) as Hperm.
  rewrite length_iteration, !iteration_at in Hperm by lia.
  specialize (Hperm Hi). rewrite <- iteration_backfill in Hperm by done.
  destruct (remove_hit_outcome s v h i Hwf Hfirst)
    as (r1 & s1 & h1 & Hrm1 & _ & Hn & Hit & _).
  assert (_size s' = _size s ∨ _size s' = _size s / 2) as Hsz.
  { rewrite (remove_hit s v h i) in Hrm by done.
    destruct (_ <=? _); [destruct (hd true h)|];
      injection Hrm as <- <- <-; simpl; auto. }
  rewrite Hrm1 in Hrm. injection Hrm as <- <- <-.
  split_and!; [done | by rewrite Hit | done | lia | done].
Qed.

(** ** Invariants along sequences of operations *)

(** A property of Sets that depends on the capacity, the count and the
    occupied range only, holds of the empty Set and is kept by [add] and
    [remove], is kept by every operation. *)
Lemma run_preserves (I : Set_ → Prop) :
  I Set_default →
  (∀ s s', _size s' = _size s → _num_elements s' = _num_elements s →
           iteration s' = iteration s → I s → I s') →
  (∀ s v h r s' h', wf s → I s → add v s h = (r, s', h') → I s') →
  (∀ s v h r s' h', wf s → I s → remove v s h = (r, s', h') → I s') →
  ∀ ops this other h,
    wf this → wf other → I this → I other →
    ∃ this' other' h',
      run ops (this, other, h) = (this', other', h') ∧
      I this' ∧ I other'.
Proof.
  intros Hdef Hcopy Hadd Hrm ops. unfold run.
  induction ops as [|o ops IH]; intros this other h Hwf1 Hwf2 HI1 HI2;
    cbn [fold_left].
  { by do 3 eexists. }
  destruct (step_invariant o this other h Hwf1 Hwf2)
    as (this1 & other1 & h1 & Hstep & Hwf1' & Hwf2' & _).
  rewrite Hstep. apply IH; [done | done | |].
  - destruct o as [v|v| | | |]; simpl in Hstep.
    + destruct (add v this h) as [[r s'] h'] eqn:E.
      injection Hstep as <- <- <-.
      exact (Hadd _ _ _ _ _ _ Hwf1 HI1 E).
    + destruct (remove v this h) as [[r s'] h'] eqn:E.
      injection Hstep as <- <- <-.
      exact (Hrm _ _ _ _ _ _ Hwf1 HI1 E).
    + by injection Hstep as <- <- <-.
    + rewrite operator_assign_eq in Hstep by done.
      destruct (hd true h); injection Hstep as <- <- <-; [|done].
      apply (Hcopy other); [done | done | | done].
      rewrite iteration_moved by (destruct Hwf2; lia).
      by rewrite iteration_take by (destruct Hwf2; lia).
    + destruct (copy_ctor this h) as [[c|e] hc];
        by injection Hstep as <- <- <-.
    + injection Hstep as <- <- <-. by destruct other.
  - destruct o as [v|v| | | |]; simpl in Hstep.
    + destruct (add v this h) as [[r s'] h'] eqn:E.
      by injection Hstep as <- <- <-.
    + destruct (remove v this h) as [[r s'] h'] eqn:E.
      by injection Hstep as <- <- <-.
    + by injection Hstep as <- <- <-.
    + destruct (operator_assign other this h) as [[r s'] h'] eqn:E.
      by injection Hstep as <- <- <-.
    + destruct (copy_ctor_outcome this h Hwf1)
        as [[Hh E] | (c & Hh & E & _ & Hsz & Hn & Hit)];
        rewrite E in Hstep; injection Hstep as <- <- <-; [done|].
      by apply (Hcopy this).
    + injection Hstep as <- <- <-. by destruct this.
Qed.

(** X5. With a symmetric [Equal], the Sets stay without duplicates along
    every sequence of [add], [remove], [empty], copy construction, copy
    assignment and [swap], whatever the free store answers. *)
Theorem run_unique (ops : list op) (this other : Set_) (h : heap) :
  (∀ x y, _equal x y = true → _equal y x = true) →
  wf this → wf other → unique this → unique other →
  ∃ this' other' h',
    run ops (this, other, h) = (this', other', h') ∧
    unique this' ∧ unique other'.
Proof.
  intros Hsym. apply (run_preserves unique).
  - intros i j Hi. simpl in Hi. lia.
  - intros s s' _ _ Hit. rewrite !unique_distinct. by rewrite Hit.
  - intros s v h0 r s' h' Hwf Hu Hadd.
    destruct (add_cases s v h0 r s' h' Hwf Hadd)
      as [->|(Hc & _ & Hit & _)]; [done|].
    apply unique_distinct. rewrite Hit. apply distinct_app.
    apply unique_distinct in Hu. split_and!; [done | |].
    + apply distinct_cons. split; [|apply distinct_nil].
      intros y Hy. by apply elem_of_nil in Hy.
    + intros x y Hx ->%list_elem_of_singleton.
      pose proof (contains_false_elem s v x Hc Hx) as Hxy.
      split; [done | by apply symmetric_false].
  - intros s v h0 r s' h' Hwf Hu Hrm.
    destruct (remove_cases s v h0 r s' h' Hwf Hrm)
      as [(_ & -> & _)|(i & _ & Hperm & _)]; [done|].
    apply unique_distinct. apply unique_distinct in Hu.
    symmetry in Hperm. apply (distinct_perm _ _ Hperm) in Hu.
    by apply distinct_cons in Hu as [_ Hu].
Qed.

(** X6. The capacity is always zero or a power of two: along every
    sequence of operations on Sets whose capacities are such (as that of
    the empty Set is), whatever the free store answers. *)
Theorem run_capacity_pow2 (ops : list op) (this other : Set_) (h : heap) :
  wf this → wf other →
  (_size this = 0 ∨ ∃ k, _size this = 2 ^ k) →
  (_size other = 0 ∨ ∃ k, _size other = 2 ^ k) →
  ∃ this' other' h',
    run ops (this, other, h) = (this', other', h') ∧
    (_size this' = 0 ∨ ∃ k, _size this' = 2 ^ k) ∧
    (_size other' = 0 ∨ ∃ k, _size other' = 2 ^ k).
Proof.
  apply (run_preserves (λ s, _size s = 0 ∨ ∃ k, _size s = 2 ^ k)).
  - by left.
  - intros s s' -> _ _. done.
  - intros s v h0 r s' h' Hwf Hp Hadd.
    destruct (add_cases s v h0 r s' h' Hwf Hadd)
      as [->|(_ & _ & _ & ->)]; [done|].
    destruct (_ =? _); [|done]. right. unfold new_size_of.
    destruct Hp as [->|[k ->]]; simpl.
    + by exists 0.
    + exists (S k). destruct (Nat.ltb_spec 0 (2 ^ k)) as [_|Hz].
      * rewrite Nat.pow_succ_r'. lia.
      * pose proof (Nat.pow_nonzero 2 k). lia.
  - intros s v h0 r s' h' Hwf Hp Hrm.
    destruct (remove_cases s v h0 r s' h' Hwf Hrm)
      as [(_ & -> & _)|(i & _ & _ & _ & _ & [->| ->])]; [done | done |].
    destruct Hp as [->|[k ->]]; [by left|].
    destruct k as [|k]; [by left|]. right. exists k.
    rewrite Nat.pow_succ_r', Nat.mul_comm. by rewrite Nat.div_mul.
Qed.

(** ** Copy construction, copy assignment and construction from a range *)

Lemma operator_eq_cover (a b : Set_) :
  operator_eq a b = true ↔
  _num_elements a = _num_elements b ∧
  ∀ y, y ∈ iteration b → ∃ x, x ∈ iteration a ∧ _equal x y = true.
Proof.
  rewrite operator_eq_alt, andb_true_iff, Nat.eqb_eq, forallb_forall.
  split; intros [Hn Hall]; (split; [done|]).
  - intros y Hy%list_elem_of_In.
    apply Hall, existsb_exists in Hy as (x & Hx & Hxy).
    exists x. by rewrite list_elem_of_In.
  - intros y Hy%list_elem_of_In. apply existsb_exists.
    destruct (Hall y Hy) as (x & Hx%list_elem_of_In & Hxy). by exists x.
Qed.

(** X7. The copy constructor, when its buffer is granted, builds a
    well-formed Set with the capacity, the count and the iteration order of
    the source, on which [contains] answers as on the source and which is
    [==] to the source when [Equal] is reflexive; when the buffer is
    refused it is left by [std::bad_alloc] and no Set is built. *)
Theorem copy_ctor_spec (s : Set_) (h : heap) :
  wf s →
  (hd true h = false → copy_ctor s h = (Throw bad_alloc, tl h)) ∧
  (hd true h = true →
   ∃ c,
     copy_ctor s h = (Ok c, tl h) ∧
     wf c ∧
     _size c = _size s ∧
     _num_elements c = _num_elements s ∧
     iteration c = iteration s ∧
     (∀ x, contains c x = contains s x) ∧
     ((∀ x, _equal x x = true) → operator_eq c s = true)).
Proof.
  intros Hwf.
  destruct (copy_ctor_outcome s h Hwf)
    as [[Hh E] | (c & Hh & E & Hwfc & Hsz & Hn & Hit)].
  - split; [done | congruence].
  - split; [congruence|]. intros _. exists c. split_and!; try done.
    + intros x. by apply contains_iteration.
    + intros Hrefl. apply operator_eq_cover. split; [done|].
      intros y Hy. exists y. by rewrite Hit.
Qed.

(** X8. Copy assignment [this = other] is all or nothing: when the buffer
    of the copy is granted, [this] ends with the capacity, the count and the
    iteration order of [other]; when it is refused, the call is left by
    [std::bad_alloc] and [this] is exactly as before. *)
Theorem operator_assign_spec (other this : Set_) (h : heap) :
  wf other →
  (hd true h = false →
   operator_assign other this h = (Throw bad_alloc, this, tl h)) ∧
  (hd true h = true →
   ∃ this',
     operator_assign other this h = (Ok tt, this', tl h) ∧
     wf this' ∧
     _size this' = _size other ∧
     _num_elements this' = _num_elements other ∧
     iteration this' = iteration other).
Proof.
  intros Hwf. pose proof Hwf as [Hlen Hle].
  rewrite operator_assign_eq by done. split; intros ->; [done|].
  eexists. split_and!; try done.
  - apply wf_moved; lia.
  - rewrite iteration_moved by lia. by rewrite iteration_take by lia.
Qed.

Lemma add_unique (s : Set_) (v : T) (h : heap)
    (r : result bool) (s' : Set_) (h' : heap) :
  (∀ x y, _equal x y = true → _equal y x = true) →
  wf s → unique s → add v s h = (r, s', h') → unique s'.
Proof.
  intros Hsym Hwf Hu Hadd.
  destruct (add_cases s v h r s' h' Hwf Hadd)
    as [->|(Hc & _ & Hit & _)]; [done|].
  apply unique_distinct. rewrite Hit. apply distinct_app.
  apply unique_distinct in Hu. split_and!; [done | |].
  - apply distinct_cons. split; [|apply distinct_nil].
    intros y Hy. by apply elem_of_nil in Hy.
  - intros x y Hx ->%list_elem_of_singleton.
    pose proof (contains_false_elem s v x Hc Hx) as Hxy.
    split; [done | by apply symmetric_false].
Qed.

Lemma contains_mono (s s' : Set_) (more : list T) (x : T) :
  iteration s' = iteration s ++ more →
  contains s x = true → contains s' x = true.
Proof.
  intros Hit Hc. rewrite contains_existsb, Hit, existsb_app.
  by rewrite <- contains_existsb, Hc.
Qed.

Lemma range_loop_ok (range : list T) (s : Set_) (h : heap) :
  wf s → alloc_ok h →
  ∃ s' h' added,
    range_loop range s h = (Ok tt, s', h') ∧
    wf s' ∧ alloc_ok h' ∧
    iteration s' = iteration s ++ added ∧
    added `sublist_of` range ∧
    (∀ x, x ∈ range → x ∈ iteration s' ∨ contains s' x = true) ∧
    ((∀ x y, _equal x y = true → _equal y x = true) →
     unique s → unique s').
Proof.
  revert s h; induction range as [|x range IH]; intros s h Hwf Hok.
  { exists s, h, []. split_and!; try done.
    - by rewrite app_nil_r.
    - intros x Hx. by apply elem_of_nil in Hx. }
  cbn [range_loop].
  destruct (add x s h) as [[r s1] h1] eqn:Hadd.
  destruct (add_outcome s x h Hwf)
    as (r0 & s0 & h0 & Hadd0 & Hwf1 & Hh1 & _).
  rewrite Hadd in Hadd0. injection Hadd0 as <- <- <-.
  assert (alloc_ok h1) as Hok1
    by (destruct Hh1 as [->| ->]; [done | by apply alloc_ok_tl]).
  assert (r = Ok true ∨ r = Ok false) as Hr.
  { destruct (contains s x) eqn:Hc.
    - rewrite add_present in Hadd by done. right. by injection Hadd.
    - destruct (add_absent s x h Hwf Hc (or_intror (alloc_ok_hd h Hok)))
        as (s2 & Hadd2 & _). rewrite Hadd2 in Hadd. left. by injection Hadd. }
  destruct (IH s1 h1 Hwf1 Hok1)
    as (s' & h' & added & Hloop & Hwf' & Hok' & Hit' & Hsub & Hcov & Hun').
  assert (range_loop range s1 h1 = (Ok tt, s', h') →
          bind (add x) (λ _ : bool, range_loop range) s h = (Ok tt, s', h'))
    as Hbind.
  { intros <-. unfold bind. rewrite Hadd. by destruct Hr as [-> | ->]. }
  destruct (add_cases s x h r s1 h1 Hwf Hadd)
    as [->|(Hc & _ & Hit1 & _)].
  - exists s', h', added. split_and!; try done.
    + by apply Hbind.
    + by apply sublist_cons.
    + intros y [->|Hy]%elem_of_cons; [|by apply Hcov].
      right. apply (contains_mono s s' added); [done|].
      destruct (contains s x) eqn:Hc; [done|].
      destruct (add_absent s x h Hwf Hc (or_intror (alloc_ok_hd h Hok)))
        as (s2 & Hadd2 & _ & Hn2 & _).
      rewrite Hadd2 in Hadd. injection Hadd as _ -> _. lia.
  - exists s', h', (x :: added). split_and!; try done.
    + by apply Hbind.
    + by rewrite Hit', Hit1, <- app_assoc.
    + by apply sublist_skip.
    + intros y [->|Hy]%elem_of_cons; [|by apply Hcov].
      left. rewrite Hit', Hit1. apply elem_of_app. left.
      apply elem_of_app. right. by apply list_elem_of_singleton.
    + intros Hsym Hu. apply Hun'; [done|].
      exact (add_unique s x h r s1 h1 Hsym Hwf Hu Hadd).
Qed.

(** X9. Construction from a range with every allocation granted builds a
    well-formed Set whose iteration order is a subsequence of the range (the
    kept values in the order of the range); every value of the range is in
    the Set or is found by [contains]; and, with a symmetric [Equal], the
    Set has no duplicates.  When the range is not empty and the first buffer
    is refused, the constructor is left by [std::bad_alloc]. *)
Theorem range_ctor_spec (range : list T) (h : heap) :
  (alloc_ok h →
   ∃ r h',
     range_ctor range h = (Ok r, h') ∧
     wf r ∧
     iteration r `sublist_of` range ∧
     (∀ x, x ∈ range → x ∈ iteration r ∨ contains r x = true) ∧
     ((∀ x y, _equal x y = true → _equal y x = true) → unique r)) ∧
  (range ≠ [] → hd true h = false →
   range_ctor range h = (Throw bad_alloc, tl h)).
Proof.
  split.
  - intros Hok.
    destruct (range_loop_ok range Set_default h wf_default Hok)
      as (r & h' & added & Hloop & Hwf & _ & Hit & Hsub & Hcov & Hun).
    exists r, h'. split_and!; try done.
    + unfold range_ctor. by apply (local_try_ok _ _ _ _ _ _ tt).
    + by rewrite Hit.
    + intros Hsym. apply Hun; [done|]. intros i j Hi. simpl in Hi. lia.
  - intros Hne Hh. destruct range as [|x range]; [done|].
    unfold range_ctor, local_, try_catch. cbn [range_loop].
    unfold bind at 1.
    change (mkSet [] 0 0) with Set_default.
    rewrite add_grow_fail by done.
    by unfold bind, empty_, put, throw.
Qed.

(** X10. With every allocation granted, [filter_out(S, P)] on a Set
    without duplicates builds a well-formed Set, without duplicates, whose
    iteration order is that of [S] restricted to the elements that satisfy
    [P]. *)
Theorem filter_out_spec (S : Set_) (P : T → bool) (h : heap) :
  unique S → alloc_ok h →
  ∃ r h',
    filter_out S P h = (Ok r, h') ∧
    wf r ∧
    iteration r = List.filter P (iteration S) ∧
    unique r.
Proof.
  intros Huniq Hok.
  destruct (for_each_add S P (end_ S - begin_ S) (begin_ S)
              Set_default h wf_default Hok)
    as (r & h' & Hloop & Hwf & _ & Hit).
  { unfold end_, begin_. intros i j ? ? ?. apply Huniq; lia. }
  assert (iteration r = List.filter P (iteration S)) as Hit'.
  { rewrite Hit. change (iteration Set_default) with (@nil T).
    cbn [app]. apply filter_ext. intros x.
    by rewrite contains_default, andb_true_r. }
  exists r, h'. split_and!; [|done..|].
  - unfold filter_out. by apply (local_try_ok _ _ _ _ _ _ tt).
  - apply unique_distinct. rewrite Hit'.
    by apply distinct_filter, unique_distinct.
Qed.

(** ** [operator==] as an equivalence, and the laws of the set algebra *)

Lemma cover_symmetric (la lb : list T) :
  equal_equivalence → distinct lb → length la = length lb →
  (∀ y, y ∈ lb → ∃ x, x ∈ la ∧ _equal x y = true) →
  ∀ x, x ∈ la → ∃ y, y ∈ lb ∧ _equal y x = true.
Proof.
  intros (Hrefl & Hsym & Htrans).
  revert la; induction lb as [|y lb IH]; intros la Hd Hlen Hcov x Hx.
  { destruct la; [by apply elem_of_nil in Hx | done]. }
  apply distinct_cons in Hd as [Hy Hd].
  destruct (Hcov y) as (x0 & Hx0 & Hx0y); [by left|].
  apply elem_of_Permutation in Hx0 as [la' Hperm].
  assert (length la' = length lb) as Hlen'.
  { apply Permutation_length in Hperm. simpl in *. lia. }
  assert (∀ y', y' ∈ lb → ∃ x', x' ∈ la' ∧ _equal x' y' = true) as Hcov'.
  { intros y' Hy'. destruct (Hcov y') as (x' & Hx' & Hx'y'); [by right|].
    rewrite Hperm in Hx'. apply elem_of_cons in Hx' as [->|Hx'].
    - exfalso. destruct (Hy y' Hy') as [Hyy' _].
      assert (_equal y y' = true)
        by (eapply Htrans; [apply Hsym, Hx0y | done]).
      congruence.
    - by exists x'. }
  rewrite Hperm in Hx. apply elem_of_cons in Hx as [->|Hx].
  - exists y. split; [by left | by apply Hsym].
  - destruct (IH la' Hd Hlen' Hcov' x Hx) as (y' & Hy' & Hy'x).
    exists y'. split; [by right | done].
Qed.

(** X11. With an [Equal] that is an equivalence, [operator==] is
    reflexive, transitive and, when the Set on the right has no duplicates,
    symmetric. *)
Theorem operator_eq_equivalence :
  equal_equivalence →
  (∀ a, operator_eq a a = true) ∧
  (∀ a b, unique b → operator_eq a b = true → operator_eq b a = true) ∧
  (∀ a b c,
     operator_eq a b = true → operator_eq b c = true →
     operator_eq a c = true).
Proof.
  intros Heq. pose proof Heq as (Hrefl & Hsym & Htrans). split_and!.
  - intros a. apply operator_eq_cover. split; [done|].
    intros y Hy. by exists y.
  - intros a b Hu [Hn Hcov]%operator_eq_cover.
    apply operator_eq_cover. split; [done|].
    apply cover_symmetric; [done | by apply unique_distinct | | done].
    by rewrite !length_iteration.
  - intros a b c [Hn1 Hcov1]%operator_eq_cover [Hn2 Hcov2]%operator_eq_cover.
    apply operator_eq_cover. split; [congruence|].
    intros z Hz. destruct (Hcov2 z Hz) as (y & Hy & Hyz).
    destruct (Hcov1 y Hy) as (x & Hx & Hxy).
    exists x. split; [done | by eapply Htrans].
Qed.

Lemma existsb_true_iff (f : T → bool) (l : list T) :
  existsb f l = true ↔ ∃ x, x ∈ l ∧ f x = true.
Proof.
  rewrite existsb_exists. by setoid_rewrite list_elem_of_In.
Qed.

Lemma contains_true_iff (s : Set_) (x : T) :
  contains s x = true ↔ ∃ y, y ∈ iteration s ∧ _equal y x = true.
Proof. by rewrite contains_existsb, existsb_true_iff. Qed.

Lemma elem_of_filter_bool (p : T → bool) (l : list T) (x : T) :
  x ∈ List.filter p l ↔ x ∈ l ∧ p x = true.
Proof. by rewrite !list_elem_of_In, filter_In. Qed.

Lemma bool_eq_iff (b1 b2 : bool) : (b1 = true ↔ b2 = true) → b1 = b2.
Proof. destruct b1, b2; intros [H1 H2]; auto; symmetry; auto. Qed.

Lemma operator_plus_iteration (a b : Set_) (h : heap) :
  wf a → unique b → alloc_ok h →
  ∃ r h',
    operator_plus a b h = (Ok r, h') ∧
    wf r ∧
    iteration r =
      iteration a ++ List.filter (λ x, negb (contains a x)) (iteration b).
Proof.
  intros Hwfa Huniq Hok. unfold operator_plus.
  destruct (copy_ctor_outcome a h Hwfa)
    as [[Hh _] | (new_set & _ & -> & Hwf0 & _ & _ & Hit0)].
  { apply alloc_ok_hd in Hok. congruence. }
  destruct (for_each_add b (λ _, true) (end_ b - begin_ b) (begin_ b)
              new_set (tl h) Hwf0 (alloc_ok_tl h Hok))
    as (r & h' & Hloop & Hwf & _ & Hit).
  { unfold end_, begin_. intros i j ? ? ?. apply Huniq; lia. }
  exists r, h'. split_and!; [|done|].
  - by apply (local_try_ok _ _ _ _ _ _ tt).
  - rewrite Hit, Hit0. f_equal. apply filter_ext. intros x. simpl.
    by rewrite (contains_iteration a new_set).
Qed.

Lemma operator_minus_iteration (a b : Set_) (h : heap) :
  unique a → alloc_ok h →
  ∃ r h',
    operator_minus a b h = (Ok r, h') ∧
    wf r ∧
    iteration r = List.filter (contains b) (iteration a).
Proof.
  intros Huniq Hok.
  destruct (for_each_add a (contains b) (end_ a - begin_ a) (begin_ a)
              Set_default h wf_default Hok)
    as (r & h' & Hloop & Hwf & _ & Hit).
  { unfold end_, begin_. intros i j ? ? ?. apply Huniq; lia. }
  exists r, h'. split_and!; [|done|].
  - unfold operator_minus. by apply (local_try_ok _ _ _ _ _ _ tt).
  - rewrite Hit. change (iteration Set_default) with (@nil T).
    cbn [app]. apply filter_ext. intros x.
    by rewrite contains_default, andb_true_r.
Qed.

(** X12. With an [Equal] that is an equivalence and every allocation
    granted, the union [a + b] of two Sets without duplicates contains a
    value exactly when [a] or [b] contains it, has no duplicates, and holds
    at most as many elements as [a] and [b] together. *)
Theorem operator_plus_laws (a b : Set_) (h : heap) :
  equal_equivalence → wf a → unique a → unique b → alloc_ok h →
  ∃ r h',
    operator_plus a b h = (Ok r, h') ∧
    (∀ x, contains r x = contains a x || contains b x) ∧
    unique r ∧
    _num_elements a ≤ _num_elements r ≤ _num_elements a + _num_elements b.
Proof.
  intros (Hrefl & Hsym & Htrans) Hwfa Hua Hub Hok.
  destruct (operator_plus_iteration a b h Hwfa Hub Hok)
    as (r & h' & Hop & Hwf & Hit).
  exists r, h'. split_and!; [done | | | |].
  - intros x. apply bool_eq_iff.
    rewrite orb_true_iff, !contains_true_iff, Hit. split.
    + intros (y & [Hy|[Hy _]%elem_of_filter_bool]%elem_of_app & Hyx);
        [left | right]; by exists y.
    + intros [(y & Hy & Hyx)|(y & Hy & Hyx)].
      * exists y. split; [|done]. apply elem_of_app. by left.
      * destruct (contains a y) eqn:Hc.
        -- apply contains_true_iff in Hc as (z & Hz & Hzy).
           exists z. split; [apply elem_of_app; by left|].
           by eapply Htrans.
        -- exists y. split; [|done]. apply elem_of_app. right.
           apply elem_of_filter_bool. by rewrite Hc.
  - apply unique_distinct. rewrite Hit. apply distinct_app. split_and!.
    + by apply unique_distinct.
    + by apply distinct_filter, unique_distinct.
    + intros x y Hx [Hy Hc%negb_true_iff]%elem_of_filter_bool.
      pose proof (contains_false_elem a y x Hc Hx) as Hxy.
      split; [done | by apply symmetric_false].
  - rewrite <- !length_iteration, Hit, length_app. lia.
  - rewrite <- !length_iteration, Hit, length_app.
    pose proof (filter_length_le (λ x, negb (contains a x)) (iteration b)).
    lia.
Qed.

(** X13. With an [Equal] that is an equivalence and every allocation
    granted, the intersection [a - b] of a Set [a] without duplicates with
    [b] contains a value exactly when both [a] and [b] contain it, has no
    duplicates, and holds at most as many elements as [a]. *)
Theorem operator_minus_laws (a b : Set_) (h : heap) :
  equal_equivalence → unique a → alloc_ok h →
  ∃ r h',
    operator_minus a b h = (Ok r, h') ∧
    (∀ x, contains r x = contains a x && contains b x) ∧
    unique r ∧
    _num_elements r ≤ _num_elements a.
Proof.
  intros (Hrefl & Hsym & Htrans) Hua Hok.
  destruct (operator_minus_iteration a b h Hua Hok)
    as (r & h' & Hop & Hwf & Hit).
  exists r, h'. split_and!; [done | | |].
  - intros x. apply bool_eq_iff.
    rewrite andb_true_iff, !contains_true_iff, Hit. split.
    + intros (y & [Hy Hc]%elem_of_filter_bool & Hyx). split.
      * by exists y.
      * apply contains_true_iff in Hc as (z & Hz & Hzy).
        exists z. split; [done | by eapply Htrans].
    + intros [(y & Hy & Hyx) (z & Hz & Hzx)].
      exists y. split; [|done]. apply elem_of_filter_bool. split; [done|].
      apply contains_true_iff. exists z. split; [done|].
      eapply Htrans; [exact Hzx | by apply Hsym].
  - apply unique_distinct. rewrite Hit.
    by apply distinct_filter, unique_distinct.
  - rewrite <- !length_iteration, Hit. apply filter_length_le.
Qed.

(** X14. Indexed access and iteration agree: for an [int] index,
    [operator[]] returns the element that the iteration meets at that
    position, and throws [std::out_of_range] when the index is negative or
    the iteration has no such position; the iteration meets
    [getNumElements()] elements. *)
Theorem operator_index_iteration (s : Set_) (index : Z) :
  int_range index →
  operator_index s index =
    (if decide (index < 0)%Z then Throw out_of_range
     else match iteration s !! Z.to_nat index with
          | Some x => Ok x
          | None => Throw out_of_range
          end) ∧
  length (iteration s) = getNumElements s.
Proof.
  intros [Hlo Hhi]. split; [|apply length_iteration].
  unfold operator_index, to_size_t.
  destruct (Z.ltb_spec index 0) as [Hneg|Hpos]; simpl.
  { by rewrite decide_True by done. }
  rewrite decide_False by lia. rewrite Z.mod_small by lia.
  destruct (Z.leb_spec (Z.of_nat (_num_elements s)) index) as [Hge|Hlt].
  - rewrite lookup_ge_None_2; [done|]. rewrite length_iteration. lia.
  - by rewrite iteration_lookup by lia.
Qed.

(** ** The ways out of the functions that build a Set *)

Lemma add_result (s : Set_) (v : T) (h : heap)
    (r : result bool) (s' : Set_) (h' : heap) :
  wf s → add v s h = (r, s', h') →
  wf s' ∧ (r = Throw bad_alloc ∨ ∃ b, r = Ok b).
Proof.
  intros Hwf Hadd.
  destruct (add_outcome s v h Hwf) as (r0 & s0 & h0 & Hadd0 & Hwf' & _).
  rewrite Hadd in Hadd0. injection Hadd0 as <- <- <-. split; [done|].
  destruct (contains s v) eqn:Hc.
  { rewrite add_present in Hadd by done. right. exists false.
    by injection Hadd. }
  destruct (decide (_num_elements s < _size s ∨ hd true h = true))
    as [Hroom|Hfull].
  - destruct (add_absent s v h Hwf Hc Hroom) as (s1 & Hadd1 & _).
    rewrite Hadd1 in Hadd. right. exists true. by injection Hadd.
  - destruct Hwf as [Hlen Hle].
    rewrite add_grow_fail in Hadd; [left; by injection Hadd | done | lia |].
    destruct (hd true h); [exfalso; apply Hfull; by right | done].
Qed.

Lemma for_each_add_result (src : Set_) (p : T → bool) (n : nat)
    (it : const_iterator) (s : Set_) (h : heap) :
  wf s →
  ∃ r s' h',
    for_each src (λ x, if p x then bind (add x) (λ _, ret tt) else ret tt)
      n it s h = (r, s', h') ∧
    wf s' ∧ (r = Throw bad_alloc ∨ r = Ok tt).
Proof.
  revert it s h; induction n as [|n IH]; intros it s h Hwf.
  { do 3 eexists. split; [done|]. split; [done | by right]. }
  cbn [for_each]. destruct (p (deref src it)).
  - destruct (add (deref src it) s h) as [[r1 s1] h1] eqn:Hadd.
    destruct (add_result _ _ _ _ _ _ Hwf Hadd) as [Hwf1 [-> | [b ->]]].
    + do 3 eexists. unfold bind. rewrite Hadd.
      split; [done|]. split; [done | by left].
    + destruct (IH (S it) s1 h1 Hwf1) as (r & s' & h' & Hloop & Hres).
      exists r, s', h'. split; [|done].
      unfold bind. rewrite Hadd. exact Hloop.
  - destruct (IH (S it) s h Hwf) as (r & s' & h' & Hloop & Hres).
    exists r, s', h'. split; [|done]. exact Hloop.
Qed.

Lemma range_loop_result (range : list T) (s : Set_) (h : heap) :
  wf s →
  ∃ r s' h',
    range_loop range s h = (r, s', h') ∧
    wf s' ∧ (r = Throw bad_alloc ∨ r = Ok tt).
Proof.
  revert s h; induction range as [|x range IH]; intros s h Hwf.
  { do 3 eexists. split; [done|]. split; [done | by right]. }
  cbn [range_loop].
  destruct (add x s h) as [[r1 s1] h1] eqn:Hadd.
  destruct (add_result _ _ _ _ _ _ Hwf Hadd) as [Hwf1 [-> | [b ->]]].
  - do 3 eexists. unfold bind. rewrite Hadd.
    split; [done|]. split; [done | by left].
  - destruct (IH s1 h1 Hwf1) as (r & s' & h' & Hloop & Hres).
    exists r, s', h'. split; [|done].
    unfold bind. rewrite Hadd. exact Hloop.
Qed.

Lemma local_try_result (body : M unit) (obj : Set_) (h : heap)
    (r : result unit) (obj' : Set_) (h' : heap) :
  body obj h = (r, obj', h') →
  wf obj' → r = Throw bad_alloc ∨ r = Ok tt →
  local_ (try_catch body (λ e, bind empty_ (λ _, throw e))) obj h =
    (Throw bad_alloc, h') ∨
  ∃ res, local_ (try_catch body (λ e, bind empty_ (λ _, throw e))) obj h =
           (Ok res, h') ∧ wf res.
Proof.
  intros Hb Hwf [-> | ->]; unfold local_, try_catch; rewrite Hb.
  - by left.
  - right. by exists obj'.
Qed.

(** X18. Whatever the free store answers, construction from a range,
    [filter_out], [a + b] and [a - b] end in one of two ways: they return a
    well-formed Set, or they are left by [std::bad_alloc] and return
    nothing; no other exception leaves them. *)
Theorem builders_outcome (a b : Set_) (range : list T) (P : T → bool)
    (h : heap) :
  wf a →
  let outcome (x : result Set_ * heap) :=
    (∃ h', x = (Throw bad_alloc, h')) ∨ (∃ r h', x = (Ok r, h') ∧ wf r) in
  outcome (range_ctor range h) ∧
  outcome (filter_out a P h) ∧
  outcome (operator_plus a b h) ∧
  outcome (operator_minus a b h).
Proof.
  intros Hwfa outcome.
  assert (∀ body obj h0,
            (∀ s h1, wf s → ∃ r s' h',
               body s h1 = (r, s', h') ∧ wf s' ∧
               (r = Throw bad_alloc ∨ r = Ok tt)) →
            wf obj →
            outcome (local_ (try_catch body
                               (λ e, bind empty_ (λ _, throw e))) obj h0))
    as Hlocal.
  { intros body obj h0 Hbody Hobj.
    destruct (Hbody obj h0 Hobj) as (r & s' & h' & Hb & Hwf' & Hr).
    destruct (local_try_result body obj h0 r s' h' Hb Hwf' Hr)
      as [E | (res & E & Hres)]; [left | right]; eauto. }
  split_and!.
  - unfold range_ctor. apply Hlocal; [|apply wf_default].
    intros s h1 Hs. by apply range_loop_result.
  - unfold filter_out. apply Hlocal; [|apply wf_default].
    intros s h1 Hs. by apply for_each_add_result.
  - unfold operator_plus.
    destruct (copy_ctor_outcome a h Hwfa)
      as [[_ ->] | (c & _ & -> & Hwfc & _)]; [left; eauto|].
    apply Hlocal; [|done].
    intros s h1 Hs. by apply (for_each_add_result b (λ _, true)).
  - unfold operator_minus. apply Hlocal; [|apply wf_default].
    intros s h1 Hs. by apply for_each_add_result.
Qed.

End SetClass.

Arguments Set_ : clear implicits.
Arguments op : clear implicits.


(** * The claims on [Set<int, ...>] and [Set<std::string, ...>]

    [int] elements with [==] as the functor and decimal printing, and
    [std::string] elements with [==] as the functor. *)

Abbreviation addZ := (add 0%Z Z.eqb).
Abbreviation removeZ := (remove 0%Z Z.eqb).
Abbreviation containsZ := (contains 0%Z Z.eqb).
Abbreviation iterationZ := (iteration 0%Z).
Abbreviation runZ := (run 0%Z Z.eqb).
Abbreviation outZ := (operator_out 0%Z (pretty : Z → string)).
Abbreviation outS := (operator_out EmptyString (λ s : string, s)).

#[local] Open Scope Z_scope.

(** Uniqueness of a small explicit Set, slot by slot. *)
Ltac unique_by_cases :=
  let i := fresh "i" in
  let j := fresh "j" in
  intros i j ? ? ?; simpl in *;
  repeat (destruct i as [|i]; [|try lia]);
  repeat (destruct j as [|j]; [|try lia]);
  first [reflexivity | lia].

Lemma equal_int_equivalence : equal_equivalence Z.eqb.
Proof.
  split_and!.
  - intros x. apply Z.eqb_refl.
  - intros x y Hxy%Z.eqb_eq. by apply Z.eqb_eq.
  - intros x y z Hxy%Z.eqb_eq Hyz%Z.eqb_eq. apply Z.eqb_eq. congruence.
Defined.

(** ** C1 *)

(** C1, as stated, fails: on the Set [{7}] (capacity 1, as [add(7)] builds
    it from the empty Set), [remove(7)] with the shrink refused by the free
    store does not return [true]; it is left by [std::bad_alloc], after the
    removal. *)
Lemma remove_shrink_failure_is_thrown :
  let s := mkSet [7] 1 1 in
  addZ 7 Set_default [] = (Ok true, s, []) ∧
  containsZ s 7 = true ∧
  (_num_elements s - 1 <=? _size s / 4)%nat = true ∧
  removeZ 7 s [false] = (Throw bad_alloc, mkSet [7] 1 0, []) ∧
  ¬ ∃ s' h', removeZ 7 s [false] = (Ok true, s', h').
Proof.
  split_and!; [reflexivity.. |].
  intros (s' & h' & H). vm_compute in H. discriminate H.
Qed.

Lemma remove_shrink_refused_witness :
  let s := mkSet [7; 8; 0; 0; 0; 0; 0; 0] 8%nat 2%nat in
  (wf s ∧ containsZ s 7 = true ∧
   (_num_elements s - 1 ≤ _size s / 4)%nat ∧ hd true [false] = false) ∧
  ∃ i,
    first_hit 0 Z.eqb s 7 i ∧
    removeZ 7 s [false] = (Throw bad_alloc, backfill 0 s i, []) ∧
    _num_elements (backfill 0 s i) = 1%nat ∧
    _size (backfill 0 s i) = 8%nat ∧
    containsZ (backfill 0 s i) 7 = false.
Proof.
  intros s.
  assert (wf s) as Hwf by (split; simpl; lia).
  assert (_num_elements s - 1 ≤ _size s / 4)%nat as Hq
    by (vm_compute; lia).
  assert (unique 0 Z.eqb s) as Huniq by unique_by_cases.
  split; [split_and!; [exact Hwf | reflexivity | exact Hq | reflexivity]|].
  destruct (remove_shrink_refused 0 Z.eqb s 7 [false] Hwf eq_refl Hq eq_refl)
    as (i & Hfirst & Hrm & Hn & Hsz & _ & _ & Hgone).
  exists i. split_and!; [exact Hfirst | exact Hrm | exact Hn | exact Hsz |].
  exact (Hgone equal_int_equivalence Huniq).
Defined.

(** ** C2 *)

(** C2, as stated, fails: [add(1); add(2); remove(1); remove(2)] on the
    empty Set, every allocation granted, ends after a shrinking [remove]
    with capacity 1 and no element: [capacity > 0] but
    [count > capacity / 4] does not hold. *)
Lemma quarter_bound_fails_when_emptied :
  runZ [op_add 1; op_add 2; op_remove 1; op_remove 2]
       (Set_default, Set_default, []) =
    (mkSet [0] 1 0, Set_default, []) ∧
  (0 < _size (mkSet [0] 1 0))%nat ∧
  ¬ quarter_bound (mkSet [0] 1 0).
Proof.
  split_and!; [reflexivity | simpl; lia |].
  intros Hq. unfold quarter_bound in Hq. simpl in Hq.
  specialize (Hq ltac:(lia)). vm_compute in Hq. lia.
Qed.

Lemma resize_correctness_witness :
  (wf (@Set_default Z) ∧ wf (@Set_default Z) ∧ alloc_ok [true; true] ∧
   occupancy (@Set_default Z)) ∧
  ∃ this' other' h',
    runZ [op_add 1; op_add 2; op_remove 1; op_copy; op_swap]
         (Set_default, Set_default, [true; true]) = (this', other', h') ∧
    ((_num_elements this' ≤ _size this')%nat ∧
     (_num_elements other' ≤ _size other')%nat) ∧
    occupancy this' ∧ occupancy other'.
Proof.
  assert (alloc_ok [true; true]) as Hok by (repeat constructor).
  split; [split_and!;
            [apply wf_default | apply wf_default | exact Hok
            | apply occupancy_default]|].
  destruct (resize_correctness 0 Z.eqb
              [op_add 1; op_add 2; op_remove 1; op_copy; op_swap]
              Set_default Set_default [true; true] wf_default wf_default)
    as (this' & other' & h' & Hrun & Hle & Hocc).
  exists this', other', h'.
  split; [exact Hrun | split; [exact Hle |]].
  exact (Hocc Hok occupancy_default occupancy_default).
Defined.

(** ** C3 *)

Lemma add_spec_witness :
  let s := mkSet [1; 2] 2%nat 2%nat in
  (wf s ∧ containsZ s 3 = false ∧ hd true [] = true) ∧
  (fst (fst (addZ 3 s [])) = Ok false ↔ containsZ s 3 = true) ∧
  ∃ s',
    addZ 3 s [] = (Ok true, s', []) ∧
    _num_elements s' = 3%nat ∧ _size s' = 4%nat ∧
    iterationZ s' = [1; 2; 3].
Proof.
  intros s.
  assert (wf s) as Hwf by (split; simpl; lia).
  split; [split_and!; [exact Hwf | reflexivity | reflexivity]|].
  destruct (add_spec 0 Z.eqb s 3 [] Hwf) as (Hiff & _ & Habsent).
  split; [exact Hiff|].
  destruct (Habsent eq_refl (or_intror eq_refl))
    as (s' & Hadd & _ & Hn & Hsz & _ & Hit).
  exists s'. split_and!; [exact Hadd | exact Hn | exact Hsz | exact Hit].
Defined.

(** Scenario 1: [add(1); add(2); add(3); add(2)] gives [count] 3 and the
    last [add] returns [false]. *)
Example add_duplicate_rejected :
  let '(this, _, _) :=
    runZ [op_add 1; op_add 2; op_add 3] (Set_default, Set_default, []) in
  addZ 2 this [] = (Ok false, this, []) ∧ _num_elements this = 3%nat.
Proof. by vm_compute. Qed.

(** ** C4 *)

Lemma remove_spec_witness :
  let s := mkSet [1; 2; 3; 0] 4%nat 3%nat in
  (wf s ∧ first_hit 0 Z.eqb s 1 0 ∧
   (_num_elements s - 1 <=? _size s / 4)%nat = false) ∧
  ∃ s',
    removeZ 1 s [] = (Ok true, s', []) ∧
    _num_elements s' = 2%nat ∧ _size s' = 4%nat ∧
    iterationZ s' = [3; 2].
Proof.
  intros s.
  assert (wf s) as Hwf by (split; simpl; lia).
  assert (first_hit 0 Z.eqb s 1 0) as Hfirst
    by (split_and!; [simpl; lia | reflexivity | intros j Hj; lia]).
  split; [split_and!; [exact Hwf | exact Hfirst | reflexivity]|].
  destruct (remove_spec 0 Z.eqb s 1 [] Hwf) as [_ Hhit].
  destruct (Hhit 0%nat Hfirst (or_introl eq_refl))
    as (s' & Hrm & _ & Hn & Hsz & Hit & _).
  exists s'. split_and!; [exact Hrm | exact Hn | exact Hsz | exact Hit].
Defined.

(** The backfill is not a left shift: removing the first of [1 2 3] leaves
    [3 2], not [2 3]. *)
Example remove_is_not_a_left_shift :
  let '(_, s', _) := removeZ 1 (mkSet [1; 2; 3; 0] 4 3) [] in
  iterationZ s' = [3; 2] ∧ iterationZ s' ≠ [2; 3].
Proof. by vm_compute. Qed.

(** ** C5 *)

Lemma operator_eq_spec_witness :
  let a := mkSet [1; 2] 2%nat 2%nat in
  let b := mkSet [2; 1; 0; 0] 4%nat 2%nat in
  (iterationZ a ≡ₚ iterationZ b) ∧
  (operator_eq 0 Z.eqb a b = true ↔
   _num_elements a = _num_elements b ∧
   ∀ x, x ∈ iterationZ b → containsZ a x = true) ∧
  operator_eq 0 Z.eqb b a = operator_eq 0 Z.eqb a b.
Proof.
  intros a b.
  assert (iterationZ a ≡ₚ iterationZ b) as Hab by apply perm_swap.
  destruct (operator_eq_spec 0 Z.eqb a b) as [Hiff Hperm].
  split; [exact Hab|]. split; [exact Hiff|].
  apply Hperm; [exact Hab | symmetry; exact Hab].
Defined.

(** ** C6 and C7 *)

Lemma operator_minus_spec_witness :
  let a := mkSet [1; 2; 3; 0] 4%nat 3%nat in
  let b := mkSet [3; 4; 5; 0] 4%nat 3%nat in
  (unique 0 Z.eqb a ∧ alloc_ok []) ∧
  ∃ r h',
    operator_minus 0 Z.eqb a b [] = (Ok r, h') ∧
    wf r ∧ iterationZ r = [3].
Proof.
  intros a b.
  assert (unique 0 Z.eqb a) as Huniq by unique_by_cases.
  assert (alloc_ok []) as Hok by constructor.
  split; [split; [exact Huniq | exact Hok]|].
  destruct (operator_minus_spec 0 Z.eqb a b [] Huniq Hok)
    as (r & h' & Hop & Hwf & Hit & _).
  exists r, h'. split_and!; [exact Hop | exact Hwf | exact Hit].
Defined.

Lemma operator_plus_spec_witness :
  let a := mkSet [1; 2; 3; 0] 4%nat 3%nat in
  let b := mkSet [3; 4; 5; 0] 4%nat 3%nat in
  (wf a ∧ unique 0 Z.eqb b ∧ alloc_ok []) ∧
  ∃ r h',
    operator_plus 0 Z.eqb a b [] = (Ok r, h') ∧
    wf r ∧ iterationZ r = [1; 2; 3; 4; 5].
Proof.
  intros a b.
  assert (wf a) as Hwf by (split; simpl; lia).
  assert (unique 0 Z.eqb b) as Huniq by unique_by_cases.
  assert (alloc_ok []) as Hok by constructor.
  split; [split_and!; [exact Hwf | exact Huniq | exact Hok]|].
  destruct (operator_plus_spec 0 Z.eqb a b [] Hwf Huniq Hok)
    as (r & h' & Hop & Hwfr & Hit).
  exists r, h'. split_and!; [exact Hop | exact Hwfr | exact Hit].
Defined.

(** Scenario 3: for [a = {1,2,3}] and [b = {3,4,5}], [a + b] prints as
    ["5 (1) (2) (3) (4) (5)"] and [a - b] as ["1 (3)"]. *)
Example union_and_intersection_printed :
  let '(a, _, _) :=
    runZ [op_add 1; op_add 2; op_add 3] (Set_default, Set_default, []) in
  let '(b, _, _) :=
    runZ [op_add 3; op_add 4; op_add 5] (Set_default, Set_default, []) in
  (∃ r h, operator_plus 0 Z.eqb a b [] = (Ok r, h) ∧
          outZ EmptyString r = "5 (1) (2) (3) (4) (5)"%string) ∧
  (∃ r h, operator_minus 0 Z.eqb a b [] = (Ok r, h) ∧
          outZ EmptyString r = "1 (3)"%string).
Proof. vm_compute. split; do 2 eexists; split; reflexivity. Qed.

(** ** C8 *)

Lemma operator_index_spec_witness :
  let s := mkSet [10; 30; 20; 0] 4%nat 3%nat in
  (int_range 1 ∧ int_range 3 ∧ int_range (-7654) ∧
   (0 ≤ 1 < Z.of_nat (_num_elements s)) ∧
   ¬ (0 ≤ 3 < Z.of_nat (_num_elements s))) ∧
  operator_index 0 s 1 = Ok 30 ∧
  operator_index 0 s 3 = Throw out_of_range ∧
  operator_index 0 s (-7654) = Throw out_of_range ∧
  operator_index 0 (@Set_default Z) (-7654) = Throw out_of_range.
Proof.
  intros s.
  assert (int_range 1) as H1 by (unfold int_range; lia).
  assert (int_range 3) as H3 by (unfold int_range; lia).
  assert (int_range (-7654)) as Hn by (unfold int_range; lia).
  assert (0 ≤ 1 < Z.of_nat (_num_elements s)) as Hin by (simpl; lia).
  assert (¬ (0 ≤ 3 < Z.of_nat (_num_elements s))) as Hout by (simpl; lia).
  split; [exact (conj H1 (conj H3 (conj Hn (conj Hin Hout))))|].
  split_and!.
  - exact (proj1 (proj1 (operator_index_spec 0 s 1) H1) Hin).
  - exact (proj2 (proj1 (operator_index_spec 0 s 3) H3) Hout).
  - apply (proj2 (operator_index_spec 0 s (-7654))). lia.
  - apply (proj2 (operator_index_spec 0 s (-7654))). lia.
Defined.

(** ** C9 *)

Lemma operator_out_spec_witness :
  outS EmptyString (mkSet ["b"; "b"]%string 2%nat 1%nat) = "1 (b)"%string ∧
  outS EmptyString (mkSet [] 0%nat 0%nat) = "0"%string.
Proof.
  split.
  - rewrite (proj1 (operator_out_spec EmptyString (λ s : string, s)
                      EmptyString (mkSet ["b"; "b"]%string 2%nat 1%nat))).
    reflexivity.
  - apply (proj2 (operator_out_spec EmptyString (λ s : string, s)
                    EmptyString (mkSet [] 0%nat 0%nat))).
    reflexivity.
Defined.

(** Scenario 2: [add("a"); add("b"); remove("a")] leaves only ["b"], and
    the Set prints as ["1 (b)"]. *)
Example add_add_remove_printed :
  let '(this, _, _) :=
    run EmptyString String.eqb
      [op_add "a"; op_add "b"; op_remove "a"]%string
      (Set_default, Set_default, []) in
  iteration EmptyString this = ["b"%string] ∧
  outS EmptyString this = "1 (b)"%string.
Proof. by vm_compute. Qed.

(** ** C10 *)

Lemma add_remove_restores_witness :
  let s := mkSet [1; 2] 2%nat 2%nat in
  (wf s ∧ containsZ s 3 = false ∧ Z.eqb 3 3 = true ∧ alloc_ok [true]) ∧
  ∃ s1 h1 s2 h2,
    addZ 3 s [true] = (Ok true, s1, h1) ∧
    removeZ 3 s1 h1 = (Ok true, s2, h2) ∧
    _num_elements s2 = _num_elements s ∧
    iterationZ s2 = iterationZ s.
Proof.
  intros s.
  assert (wf s) as Hwf by (split; simpl; lia).
  assert (alloc_ok [true]) as Hok by (repeat constructor).
  split; [split_and!; [exact Hwf | reflexivity | reflexivity | exact Hok]|].
  destruct (add_remove_restores 0 Z.eqb s 3 [true] Hwf eq_refl eq_refl)
    as (r1 & s1 & h1 & r2 & s2 & h2 & Hadd & Hrm & _ & Hn & Hit & Hres).
  destruct (Hres Hok) as [Hr1 Hr2].
  exists s1, h1, s2, h2.
  split_and!; [by rewrite <- Hr1 | by rewrite <- Hr2 | exact Hn | exact Hit].
Defined.

(** The capacity is not restored in general: on an empty Set of capacity 1,
    [add(5); remove(5)] ends with capacity 0. *)
Example add_remove_changes_capacity :
  let s := mkSet [0] 1%nat 0%nat in
  let '(_, s1, h1) := addZ 5 s [] in
  let '(_, s2, _) := removeZ 5 s1 h1 in
  iterationZ s2 = iterationZ s ∧ _size s = 1%nat ∧ _size s2 = 0%nat.
Proof. by vm_compute. Qed.

(** * Further properties on [Set<int, ...>] *)

Lemma equal_int_symmetric (x y : Z) : Z.eqb x y = true → Z.eqb y x = true.
Proof. intros Hxy%Z.eqb_eq. by apply Z.eqb_eq. Defined.


Lemma add_contains_witness :
  let s := mkSet [1; 2] 2%nat 2%nat in
  let s' := mkSet [1; 2; 3; 0] 4%nat 3%nat in
  (wf s ∧ addZ 3 s [] = (Ok true, s', [])) ∧
  ∀ w, containsZ s' w = containsZ s w || (true && Z.eqb 3 w).
Proof.
  intros s s'.
  assert (wf s) as Hwf by (split; simpl; lia).
  assert (addZ 3 s [] = (Ok true, s', [])) as Hadd by reflexivity.
  split; [split; [exact Hwf | exact Hadd]|].
  exact (add_contains 0 Z.eqb s 3 [] true s' [] Hwf Hadd).
Defined.



Lemma unique_default : unique 0 Z.eqb Set_default.
Proof. intros i j Hi. simpl in Hi. lia. Defined.

Lemma run_unique_witness :
  ((∀ x y, Z.eqb x y = true → Z.eqb y x = true) ∧
   wf (@Set_default Z) ∧ unique 0 Z.eqb Set_default) ∧
  ∃ this' other' h',
    runZ [op_add 1; op_add 2; op_add 1; op_remove 1; op_copy; op_swap]
         (Set_default, Set_default, [true; false; true]) =
      (this', other', h') ∧
    unique 0 Z.eqb this' ∧ unique 0 Z.eqb other'.
Proof.
  split; [split_and!; [exact equal_int_symmetric | apply wf_default
                      | exact unique_default]|].
  exact (run_unique 0 Z.eqb
           [op_add 1; op_add 2; op_add 1; op_remove 1; op_copy; op_swap]
           Set_default Set_default [true; false; true]
           equal_int_symmetric wf_default wf_default
           unique_default unique_default).
Defined.

Lemma run_capacity_pow2_witness :
  (wf (@Set_default Z) ∧
   (_size (@Set_default Z) = 0%nat ∨
    ∃ k : nat, _size (@Set_default Z) = (2 ^ k)%nat)) ∧
  ∃ this' other' h',
    runZ [op_add 1; op_add 2; op_add 3; op_remove 1; op_copy; op_remove 2]
         (Set_default, Set_default, [true; true; true; false]) =
      (this', other', h') ∧
    (_size this' = 0%nat ∨ ∃ k : nat, _size this' = (2 ^ k)%nat) ∧
    (_size other' = 0%nat ∨ ∃ k : nat, _size other' = (2 ^ k)%nat).
Proof.
  assert (_size (@Set_default Z) = 0%nat ∨
          ∃ k : nat, _size (@Set_default Z) = (2 ^ k)%nat) as Hp
    by (left; reflexivity).
  split; [split; [apply wf_default | exact Hp]|].
  exact (run_capacity_pow2 0 Z.eqb
           [op_add 1; op_add 2; op_add 3; op_remove 1; op_copy; op_remove 2]
           Set_default Set_default [true; true; true; false]
           wf_default wf_default Hp Hp).
Defined.

Lemma copy_ctor_spec_witness :
  let s := mkSet [1; 2; 3; 0] 4%nat 3%nat in
  (wf s ∧ hd true [false] = false ∧ hd true [] = true ∧
   ∀ x, Z.eqb x x = true) ∧
  copy_ctor 0 s [false] = (Throw bad_alloc, []) ∧
  ∃ c,
    copy_ctor 0 s [] = (Ok c, []) ∧
    _size c = 4%nat ∧ iterationZ c = [1; 2; 3] ∧
    operator_eq 0 Z.eqb c s = true.
Proof.
  intros s.
  assert (wf s) as Hwf by (split; simpl; lia).
  split; [split_and!; [exact Hwf | reflexivity | reflexivity
                      | exact Z.eqb_refl]|].
  split.
  - exact (proj1 (copy_ctor_spec 0 Z.eqb s [false] Hwf) eq_refl).
  - destruct (proj2 (copy_ctor_spec 0 Z.eqb s [] Hwf) eq_refl)
      as (c & Hc & _ & Hsz & _ & Hit & _ & Heq).
    exists c. split_and!; [exact Hc | exact Hsz | exact Hit |].
    exact (Heq Z.eqb_refl).
Defined.

Lemma operator_assign_spec_witness :
  let other := mkSet [1; 2; 3; 0] 4%nat 3%nat in
  let this := mkSet [9] 1%nat 1%nat in
  (wf other ∧ hd true [false] = false ∧ hd true [] = true) ∧
  operator_assign 0 other this [false] = (Throw bad_alloc, this, []) ∧
  ∃ this',
    operator_assign 0 other this [] = (Ok tt, this', []) ∧
    _size this' = 4%nat ∧ iterationZ this' = [1; 2; 3].
Proof.
  intros other this.
  assert (wf other) as Hwf by (split; simpl; lia).
  split; [split_and!; [exact Hwf | reflexivity | reflexivity]|].
  split.
  - exact (proj1 (operator_assign_spec 0 other this [false] Hwf) eq_refl).
  - destruct (proj2 (operator_assign_spec 0 other this [] Hwf) eq_refl)
      as (this' & Hc & _ & Hsz & _ & Hit).
    exists this'. split_and!; [exact Hc | exact Hsz | exact Hit].
Defined.

Lemma range_ctor_spec_witness :
  (alloc_ok [] ∧ [1; 2; 1; 3] ≠ [] ∧ hd true [false] = false ∧
   ∀ x y, Z.eqb x y = true → Z.eqb y x = true) ∧
  (∃ r h',
     range_ctor 0 Z.eqb [1; 2; 1; 3] [] = (Ok r, h') ∧
     iterationZ r `sublist_of` [1; 2; 1; 3] ∧
     (∀ x, x ∈ [1; 2; 1; 3] → x ∈ iterationZ r ∨ containsZ r x = true) ∧
     unique 0 Z.eqb r) ∧
  range_ctor 0 Z.eqb [1; 2; 1; 3] [false] = (Throw bad_alloc, []).
Proof.
  assert (alloc_ok []) as Hok by constructor.
  assert ([1; 2; 1; 3] ≠ []) as Hne by discriminate.
  split; [split_and!; [exact Hok | exact Hne | reflexivity
                      | exact equal_int_symmetric]|].
  split.
  - destruct (proj1 (range_ctor_spec 0 Z.eqb [1; 2; 1; 3] []) Hok)
      as (r & h' & Hr & _ & Hsub & Hcov & Hun).
    exists r, h'. split_and!; [exact Hr | exact Hsub | exact Hcov |].
    exact (Hun equal_int_symmetric).
  - exact (proj2 (range_ctor_spec 0 Z.eqb [1; 2; 1; 3] [false])
             Hne eq_refl).
Defined.

Lemma filter_out_spec_witness :
  let S := mkSet [1; 2; 3; 4; 5; 0; 0; 0] 8%nat 5%nat in
  (unique 0 Z.eqb S ∧ alloc_ok []) ∧
  ∃ r h',
    filter_out 0 Z.eqb S Z.even [] = (Ok r, h') ∧
    wf r ∧ iterationZ r = [2; 4] ∧ unique 0 Z.eqb r.
Proof.
  intros S.
  assert (unique 0 Z.eqb S) as Huniq by unique_by_cases.
  assert (alloc_ok []) as Hok by constructor.
  split; [split; [exact Huniq | exact Hok]|].
  exact (filter_out_spec 0 Z.eqb S Z.even [] Huniq Hok).
Defined.

Lemma operator_eq_equivalence_witness :
  let a := mkSet [1; 2] 2%nat 2%nat in
  let b := mkSet [2; 1; 0; 0] 4%nat 2%nat in
  (equal_equivalence Z.eqb ∧ unique 0 Z.eqb b ∧
   operator_eq 0 Z.eqb a b = true) ∧
  operator_eq 0 Z.eqb a a = true ∧
  operator_eq 0 Z.eqb b a = true.
Proof.
  intros a b.
  assert (unique 0 Z.eqb b) as Huniq by unique_by_cases.
  assert (operator_eq 0 Z.eqb a b = true) as Hab by reflexivity.
  destruct (operator_eq_equivalence 0 Z.eqb equal_int_equivalence)
    as (Hrefl & Hsym & _).
  split; [split_and!; [exact equal_int_equivalence | exact Huniq
                      | exact Hab]|].
  split; [exact (Hrefl a) | exact (Hsym a b Huniq Hab)].
Defined.

Lemma operator_plus_laws_witness :
  let a := mkSet [1; 2; 3; 0] 4%nat 3%nat in
  let b := mkSet [3; 4; 5; 0] 4%nat 3%nat in
  (equal_equivalence Z.eqb ∧ wf a ∧ unique 0 Z.eqb a ∧ unique 0 Z.eqb b ∧
   alloc_ok []) ∧
  ∃ r h',
    operator_plus 0 Z.eqb a b [] = (Ok r, h') ∧
    (∀ x, containsZ r x = containsZ a x || containsZ b x) ∧
    unique 0 Z.eqb r ∧
    (_num_elements a ≤ _num_elements r ≤ _num_elements a + _num_elements b)%nat.
Proof.
  intros a b.
  assert (wf a) as Hwf by (split; simpl; lia).
  assert (unique 0 Z.eqb a) as Hua by unique_by_cases.
  assert (unique 0 Z.eqb b) as Hub by unique_by_cases.
  assert (alloc_ok []) as Hok by constructor.
  split; [split_and!; [exact equal_int_equivalence | exact Hwf | exact Hua
                      | exact Hub | exact Hok]|].
  exact (operator_plus_laws 0 Z.eqb a b [] equal_int_equivalence
           Hwf Hua Hub Hok).
Defined.

Lemma operator_minus_laws_witness :
  let a := mkSet [1; 2; 3; 0] 4%nat 3%nat in
  let b := mkSet [3; 4; 5; 0] 4%nat 3%nat in
  (equal_equivalence Z.eqb ∧ unique 0 Z.eqb a ∧ alloc_ok []) ∧
  ∃ r h',
    operator_minus 0 Z.eqb a b [] = (Ok r, h') ∧
    (∀ x, containsZ r x = containsZ a x && containsZ b x) ∧
    unique 0 Z.eqb r ∧
    (_num_elements r ≤ _num_elements a)%nat.
Proof.
  intros a b.
  assert (unique 0 Z.eqb a) as Hua by unique_by_cases.
  assert (alloc_ok []) as Hok by constructor.
  split; [split_and!; [exact equal_int_equivalence | exact Hua
                      | exact Hok]|].
  exact (operator_minus_laws 0 Z.eqb a b [] equal_int_equivalence
           Hua Hok).
Defined.

Lemma operator_index_iteration_witness :
  let s := mkSet [10; 30; 20; 0] 4%nat 3%nat in
  (int_range 2 ∧ int_range 3 ∧ int_range (-1)) ∧
  operator_index 0 s 2 = Ok 20 ∧
  operator_index 0 s 3 = Throw out_of_range ∧
  operator_index 0 s (-1) = Throw out_of_range ∧
  length (iterationZ s) = getNumElements s.
Proof.
  intros s.
  assert (int_range 2) as H2 by (unfold int_range; lia).
  assert (int_range 3) as H3 by (unfold int_range; lia).
  assert (int_range (-1)) as Hn by (unfold int_range; lia).
  split; [exact (conj H2 (conj H3 Hn))|].
  split_and!.
  - exact (proj1 (operator_index_iteration 0 s 2 H2)).
  - exact (proj1 (operator_index_iteration 0 s 3 H3)).
  - exact (proj1 (operator_index_iteration 0 s (-1) Hn)).
  - exact (proj2 (operator_index_iteration 0 s 2 H2)).
Defined.

(** * Properties of the callers' functors and of the text helpers *)

#[local] Close Scope Z_scope.

Lemma QString_eq_true (a b : QString) : QString_eq a b = true ↔ a = b.
Proof. unfold QString_eq. apply bool_decide_eq_true. Qed.

Lemma equivalence_of_eq {A : Type} (f : A → A → bool) :
  (∀ a b, f a b = true ↔ a = b) → equal_equivalence f.
Proof.
  intros Hf. split_and!.
  - intros x. by apply Hf.
  - intros x y ->%Hf. by apply Hf.
  - intros x y z ->%Hf ->%Hf. by apply Hf.
Qed.

(** X20. The functors that the callers plug into the Set, [EqualPerson]
    and [DipintoEquality], hold exactly of two objects with the same
    members, and so are equivalences: the Sets built with them are covered
    by the properties that ask for one. *)
Theorem functors_are_equivalences :
  (∀ a b, EqualPerson a b = true ↔ a = b) ∧
  (∀ a b, DipintoEquality a b = true ↔ a = b) ∧
  equal_equivalence EqualPerson ∧
  equal_equivalence DipintoEquality.
Proof.
  assert (∀ a b, EqualPerson a b = true ↔ a = b) as HP.
  { intros [n1 a1] [n2 a2]. unfold EqualPerson. simpl.
    rewrite andb_true_iff, Z.eqb_eq, String.eqb_eq.
    split; [by intros [-> ->] | intros [= -> ->]; done]. }
  assert (∀ a b, DipintoEquality a b = true ↔ a = b) as HD.
  { intros [a1 a2 a3 a4 a5] [b1 b2 b3 b4 b5].
    unfold DipintoEquality, GetScuola, GetAutore, GetSoggetto, GetData,
      GetSala. simpl.
    rewrite !andb_true_iff, !QString_eq_true.
    split; [by intros [[[[-> ->] ->] ->] ->] | by intros [= -> -> -> -> ->]]. }
  split_and!; [done | done | by apply equivalence_of_eq
              | by apply equivalence_of_eq].
Qed.

Section MainWindowProperties.
Variable isDigit : QChar → bool.
Variable toInt : QString → Z.
Variable trimmed : QString → QString.

Lemma drop_char_at (text : QString) (i : nat) :
  i < length text → drop i text = char_at text i :: drop (S i) text.
Proof.
  intros Hi. destruct (lookup_lt_is_Some_2 text i Hi) as [c Hc].
  unfold char_at. rewrite (nth_lookup_Some _ _ _ _ Hc).
  by apply drop_S.
Qed.

(** ** [findValidYear] *)

Lemma findValidYear_loop_scan (text : QString) (n i : nat) (buf : QString) :
  n = length text + 1 - i → i ≤ length text →
  findValidYear_loop isDigit toInt text n i buf =
  scan_year isDigit toInt (drop i text) buf.
Proof.
  revert i buf; induction n as [|n IH]; intros i buf Hn Hi; [lia|].
  cbn [findValidYear_loop].
  destruct (Nat.eqb_spec i (length text)) as [->|Hne]; cbn [orb].
  - rewrite drop_all. cbn [scan_year].
    assert (n = 0) as -> by lia. unfold is_year.
    destruct ((length buf =? 3) || (length buf =? 4)); [|done].
    by destruct ((100 <=? toInt buf)%Z && (toInt buf <=? 2024)%Z).
  - rewrite (drop_char_at text i) by lia. cbn [scan_year].
    destruct (isDigit (char_at text i)); cbn [negb].
    + apply IH; lia.
    + unfold is_year.
      destruct ((length buf =? 3) || (length buf =? 4)); cbn [andb];
        [destruct ((100 <=? toInt buf)%Z && (toInt buf <=? 2024)%Z);
           [done|]|];
        apply IH; lia.
Qed.

Lemma findValidYear_scan (text : QString) :
  findValidYear isDigit toInt text = scan_year isDigit toInt text [].
Proof.
  unfold findValidYear. rewrite findValidYear_loop_scan by lia. done.
Qed.

Lemma is_year_range (buf : QString) :
  is_year toInt buf = true →
  (length buf = 3 ∨ length buf = 4) ∧ (100 ≤ toInt buf ≤ 2024)%Z.
Proof.
  unfold is_year.
  rewrite !andb_true_iff, orb_true_iff, !Nat.eqb_eq, !Z.leb_le. tauto.
Qed.

Lemma scan_year_range (rest buf : QString) :
  scan_year isDigit toInt rest buf = 0%Z ∨
  (100 ≤ scan_year isDigit toInt rest buf ≤ 2024)%Z.
Proof.
  revert buf; induction rest as [|c rest IH]; intros buf; cbn [scan_year].
  - destruct (is_year toInt buf) eqn:E; [|by left].
    right. by apply is_year_range.
  - destruct (isDigit c); [apply IH|].
    destruct (is_year toInt buf) eqn:E; [|apply IH].
    right. by apply is_year_range.
Qed.

(** X15. [findValidYear] returns either 0 or a year between 100 and 2024,
    whatever the text, and [containsValidYear] is [true] exactly when it
    returns such a year. *)
Theorem findValidYear_range (text : QString) :
  (findValidYear isDigit toInt text = 0%Z ∨
   (100 ≤ findValidYear isDigit toInt text ≤ 2024)%Z) ∧
  (containsValidYear isDigit toInt text = true ↔
   (100 ≤ findValidYear isDigit toInt text ≤ 2024)%Z).
Proof.
  pose proof (scan_year_range text []) as Hr.
  rewrite <- findValidYear_scan in Hr. split; [done|].
  unfold containsValidYear.
  destruct (Z.eqb_spec (findValidYear isDigit toInt text) 0) as [Hz|Hnz].
  - split; [done | lia].
  - split; [|done]. intros _. destruct Hr; [done | lia].
Qed.

Lemma scan_year_nondigits (pre rest : QString) :
  Forall (λ c, isDigit c = false) pre →
  scan_year isDigit toInt (pre ++ rest) [] = scan_year isDigit toInt rest [].
Proof.
  induction 1 as [|c pre Hc _ IH]; [done|].
  cbn [app scan_year]. by rewrite Hc.
Qed.

Lemma scan_year_digits (run rest buf : QString) :
  Forall (λ c, isDigit c = true) run →
  scan_year isDigit toInt (run ++ rest) buf =
  scan_year isDigit toInt rest (buf ++ run).
Proof.
  intros Hrun. revert buf. induction Hrun as [|c run Hc _ IH]; intros buf.
  - by rewrite app_nil_r.
  - cbn [app scan_year]. rewrite Hc, IH. by rewrite <- app_assoc.
Qed.

(** X16. A year is read off a whole run of digits only: when the text
    starts with characters that are not digits, followed by a run of digits
    that ends the text or is followed by a character that is not a digit,
    [findValidYear] returns the number of the run if the run has 3 or 4
    digits and its number lies between 100 and 2024, and otherwise what it
    returns on the text after the run. *)
Theorem findValidYear_first_run (pre run post : QString) :
  Forall (λ c, isDigit c = false) pre →
  Forall (λ c, isDigit c = true) run →
  (∀ c post', post = c :: post' → isDigit c = false) →
  findValidYear isDigit toInt (pre ++ run ++ post) =
  if is_year toInt run then toInt run
  else findValidYear isDigit toInt post.
Proof.
  intros Hpre Hrun Hpost.
  rewrite !findValidYear_scan, scan_year_nondigits, scan_year_digits by done.
  cbn [app]. destruct post as [|c post']; cbn [scan_year].
  - by destruct (is_year toInt run).
  - by rewrite (Hpost c post' eq_refl).
Qed.

(** ** [parseCsvLine] *)

Lemma parseCsvLine_loop_rest (line : QString) (n i : nat) (state : State)
    (fields : list QString) (value : QString) :
  length line - i ≤ n →
  parseCsvLine_loop trimmed line n i state fields value =
  parse_rest trimmed (drop i line) state fields value.
Proof.
  revert i state fields value.
  induction n as [|n IH]; intros i state fields value Hn.
  { rewrite drop_ge by lia. done. }
  cbn [parseCsvLine_loop].
  destruct (Nat.ltb_spec i (length line)) as [Hi|Hi].
  2: { rewrite drop_ge by lia. done. }
  rewrite (drop_char_at line i) by done. cbn [parse_rest].
  destruct state.
  - destruct (char_at line i =? comma)%N; [apply IH; lia|].
    destruct (char_at line i =? dquote)%N; apply IH; lia.
  - destruct (char_at line i =? dquote)%N; [|apply IH; lia].
    destruct (Nat.ltb_spec (i + 1) (length line)) as [Hi'|Hi']; cbn [andb].
    + replace (S i) with (i + 1) by lia.
      rewrite (drop_char_at line (i + 1)) by done.
      destruct (char_at line (i + 1) =? dquote)%N.
      * apply IH. lia.
      * rewrite IH by lia. replace (S i) with (i + 1) by lia.
        by rewrite (drop_char_at line (i + 1)) by done.
    + rewrite IH by lia. by rewrite drop_ge by lia.
Qed.

Lemma parseCsvLine_rest (line : QString) :
  parseCsvLine trimmed line =
  let '(fields, value) := parse_rest trimmed line Normal [] [] in
  fields ++ [trimmed value].
Proof.
  unfold parseCsvLine. rewrite parseCsvLine_loop_rest by lia. done.
Qed.

Lemma parse_rest_fields_bounds (n : nat) (rest : QString) (state : State)
    (fields : list QString) (value : QString) :
  length rest ≤ n →
  length fields ≤ length (parse_rest trimmed rest state fields value).1 ∧
  length (parse_rest trimmed rest state fields value).1 ≤
    length fields + length (List.filter (λ c, (c =? comma)%N) rest).
Proof.
  revert rest state fields value.
  induction n as [|n IH]; intros rest state fields value Hn.
  { destruct rest; [simpl; lia | simpl in Hn; lia]. }
  destruct rest as [|c rest]; [simpl; lia|].
  simpl in Hn. cbn [parse_rest List.filter].
  destruct state.
  - destruct (c =? comma)%N eqn:Ec.
    + destruct (IH rest Normal (fields ++ [trimmed value]) [])
        as [H1 H2]; [lia|].
      rewrite length_app in H1, H2. simpl in *. lia.
    + destruct (c =? dquote)%N;
        [destruct (IH rest Quote fields value) as [H1 H2]
        |destruct (IH rest Normal fields (value ++ [c])) as [H1 H2]];
        (lia || (simpl in *; lia)).
  - destruct (c =? dquote)%N eqn:Eq.
    + assert ((c =? comma)%N = false) as ->.
      { apply N.eqb_eq in Eq as ->. done. }
      destruct rest as [|next rest'].
      * simpl. lia.
      * destruct (next =? dquote)%N eqn:En.
        -- assert ((next =? comma)%N = false) as Hnc.
           { apply N.eqb_eq in En as ->. done. }
           cbn [List.filter]. rewrite Hnc.
           apply IH. simpl in Hn. lia.
        -- apply IH. lia.
    + destruct (IH rest Quote fields (value ++ [c])) as [H1 H2]; [lia|].
      destruct (c =? comma)%N; simpl in *; lia.
Qed.

Lemma parse_rest_fields_plain (rest : QString)
    (fields : list QString) (value : QString) :
  Forall (λ c, c ≠ dquote) rest →
  length (parse_rest trimmed rest Normal fields value).1 =
    length fields + length (List.filter (λ c, (c =? comma)%N) rest).
Proof.
  intros Hrest. revert fields value.
  induction Hrest as [|c rest Hc _ IH]; intros fields value;
    cbn [parse_rest List.filter]; [simpl; lia|].
  destruct (c =? comma)%N.
  - rewrite IH, length_app. simpl. lia.
  - destruct (N.eqb_spec c dquote); [done|]. by rewrite IH.
Qed.

(** X17. [parseCsvLine] always returns at least one field and at most one
    more than the line has commas, exactly one more when the line has no
    quote character: a line with fewer than four commas gives fewer than the
    five fields that [loadCsvIntoSet] reads. *)
Theorem parseCsvLine_field_count (line : QString) :
  1 ≤ length (parseCsvLine trimmed line) ≤
    1 + length (List.filter (λ c, (c =? comma)%N) line) ∧
  (Forall (λ c, c ≠ dquote) line →
   length (parseCsvLine trimmed line) =
     1 + length (List.filter (λ c, (c =? comma)%N) line)).
Proof.
  rewrite parseCsvLine_rest.
  pose proof (parse_rest_fields_bounds (length line) line Normal [] []
                (le_n _)) as [_ Hle].
  pose proof (parse_rest_fields_plain line [] []) as Heq.
  destruct (parse_rest trimmed line Normal [] []) as [fields value].
  rewrite length_app. simpl in *. split; [lia|].
  intros Hplain. rewrite (Heq Hplain). lia.
Qed.

Lemma parse_rest_plain (field rest : QString)
    (fields : list QString) (value : QString) :
  is_plain field = true →
  parse_rest trimmed (field ++ rest) Normal fields value =
  parse_rest trimmed rest Normal fields (value ++ field).
Proof.
  revert value; induction field as [|c field IH]; intros value Hplain.
  { by rewrite app_nil_r. }
  cbn [is_plain forallb] in Hplain.
  apply andb_true_iff in Hplain as [Hc Hplain].
  apply andb_true_iff in Hc as [Hc1%negb_true_iff Hc2%negb_true_iff].
  cbn [app parse_rest]. rewrite Hc1, Hc2, IH by done.
  by rewrite <- app_assoc.
Qed.

Lemma parse_rest_in_quotes (field rest : QString)
    (fields : list QString) (value : QString) :
  (∀ c rest', rest = c :: rest' → c ≠ dquote) →
  parse_rest trimmed (double_quotes field ++ dquote :: rest) Quote
    fields value =
  parse_rest trimmed rest Normal fields (value ++ field).
Proof.
  intros Hrest. revert value; induction field as [|c field IH]; intros value.
  - cbn [double_quotes app parse_rest]. rewrite N.eqb_refl, app_nil_r.
    destruct rest as [|c rest']; [done|].
    destruct (N.eqb_spec c dquote) as [Hc|Hc]; [|done].
    by destruct (Hrest c rest').
  - cbn [double_quotes].
    destruct (N.eqb_spec c dquote) as [->|Hc].
    + cbn [app parse_rest]. rewrite !N.eqb_refl, IH.
      by rewrite <- app_assoc.
    + cbn [app parse_rest].
      destruct (N.eqb_spec c dquote) as [|_]; [done|].
      rewrite IH. by rewrite <- app_assoc.
Qed.

Lemma parse_rest_written (field rest : QString)
    (fields : list QString) (value : QString) :
  (∀ c rest', rest = c :: rest' → c ≠ dquote) →
  parse_rest trimmed (write_field field ++ rest) Normal fields value =
  parse_rest trimmed rest Normal fields (value ++ field).
Proof.
  intros Hrest. unfold write_field.
  destruct (is_plain field) eqn:Hplain; [by apply parse_rest_plain|].
  unfold quoted. cbn [app parse_rest].
  change (dquote =? comma)%N with false. rewrite N.eqb_refl.
  rewrite <- app_assoc. cbn [app]. by apply parse_rest_in_quotes.
Qed.

Lemma parse_rest_joined (records : list QString) (fields : list QString) :
  records ≠ [] →
  (let '(fields', value) :=
     parse_rest trimmed (join_comma (map write_field records)) Normal
       fields [] in
   fields' ++ [trimmed value]) =
  fields ++ map trimmed records.
Proof.
  intros Hne. revert fields.
  induction records as [|field records IH]; intros fields; [done|].
  destruct records as [|field' records].
  - cbn [map join_comma].
    rewrite <- (app_nil_r (write_field field)).
    rewrite parse_rest_written by done. done.
  - change (join_comma (map write_field (field :: field' :: records)))
      with (write_field field ++
            comma :: join_comma (map write_field (field' :: records))).
    rewrite parse_rest_written by (by intros c rest' [= <- _]).
    cbn [parse_rest]. rewrite N.eqb_refl. cbn [app].
    rewrite IH by done. by rewrite <- app_assoc.
Qed.

(** X19. [parseCsvLine] reads back what a CSV writer wrote: for a record of
    one or more fields, each written as it is when it holds no comma and no
    quote and otherwise between quotes with its quotes doubled, the fields
    joined by commas, [parseCsvLine] returns the fields of the record, each
    [trimmed]. *)
Theorem parseCsvLine_round_trip (record : list QString) :
  record ≠ [] →
  parseCsvLine trimmed (join_comma (map write_field record)) =
  map trimmed record.
Proof.
  intros Hne. rewrite parseCsvLine_rest.
  by rewrite (parse_rest_joined record []).
Qed.

End MainWindowProperties.

(** ** The text helpers on ASCII text *)

Lemma findValidYear_first_run_witness :
  let pre := qstring "c. " in
  let run := qstring "1480" in
  let post := qstring "-85" in
  (Forall (λ c, ascii_isDigit c = false) pre ∧
   Forall (λ c, ascii_isDigit c = true) run ∧
   ∀ c post', post = c :: post' → ascii_isDigit c = false) ∧
  findValidYear ascii_isDigit ascii_toInt (qstring "c. 1480-85") = 1480%Z.
Proof.
  intros pre run post.
  assert (Forall (λ c, ascii_isDigit c = false) pre) as Hpre
    by (repeat constructor).
  assert (Forall (λ c, ascii_isDigit c = true) run) as Hrun
    by (repeat constructor).
  assert (∀ c post', post = c :: post' → ascii_isDigit c = false) as Hpost
    by (intros c post' [= <- _]; reflexivity).
  split; [split_and!; [exact Hpre | exact Hrun | exact Hpost]|].
  exact (findValidYear_first_run ascii_isDigit ascii_toInt pre run post
           Hpre Hrun Hpost).
Defined.

(** A run of five digits is not a year, and a year after it is still
    found; a text without digits has no year. *)
Example findValidYear_examples :
  findValidYear ascii_isDigit ascii_toInt (qstring "12345") = 0%Z ∧
  findValidYear ascii_isDigit ascii_toInt (qstring "inv. 12345, 1506") =
    1506%Z ∧
  findValidYear ascii_isDigit ascii_toInt (qstring "2025 o 1499") = 1499%Z ∧
  findValidYear ascii_isDigit ascii_toInt (qstring "senza data") = 0%Z ∧
  containsValidYear ascii_isDigit ascii_toInt (qstring "99") = false.
Proof. by vm_compute. Qed.

Lemma parseCsvLine_field_count_witness :
  let line := qstring "Scuola,Autore,Soggetto" in
  Forall (λ c, c ≠ dquote) line ∧
  length (parseCsvLine ascii_trimmed line) = 3%nat.
Proof.
  intros line.
  assert (Forall (λ c, c ≠ dquote) line) as Hplain
    by (repeat constructor; discriminate).
  split; [exact Hplain|].
  exact (proj2 (parseCsvLine_field_count ascii_trimmed line) Hplain).
Defined.

Lemma parseCsvLine_round_trip_witness :
  let record := [qstring "Fiorentina"; qstring "Botticelli, Sandro";
                 qstring " Primavera "] in
  record ≠ [] ∧
  parseCsvLine ascii_trimmed (join_comma (map write_field record)) =
    [qstring "Fiorentina"; qstring "Botticelli, Sandro";
     qstring "Primavera"].
Proof.
  intros record.
  assert (record ≠ []) as Hne by discriminate.
  split; [exact Hne|].
  exact (parseCsvLine_round_trip ascii_trimmed record Hne).
Defined.

(** ** The ways out of the builders, on [Set<int, ...>] *)

Lemma builders_outcome_witness :
  let a := mkSet [1; 2; 3; 0]%Z 4 3 in
  let b := mkSet [3; 4; 5; 0]%Z 4 3 in
  wf a ∧
  operator_plus 0%Z Z.eqb a b [true; false] = (Throw bad_alloc, []) ∧
  ((∃ h', operator_minus 0%Z Z.eqb a b [true; false] =
            (Throw bad_alloc, h')) ∨
   (∃ r h', operator_minus 0%Z Z.eqb a b [true; false] = (Ok r, h') ∧
            wf r)).
Proof.
  intros a b.
  assert (wf a) as Hwf by (split; simpl; lia).
  split; [exact Hwf|]. split; [reflexivity|].
  exact (proj2 (proj2 (proj2
           (builders_outcome 0%Z Z.eqb a b [] Z.even [true; false] Hwf)))).
Defined.
